(** * Limitless MCP: the cached, retrying API client

    A shallow embedding of the remote-data layer of the Limitless MCP server:
    - [src/api/client.ts]: [buildCacheKey], [prepareQueryParams],
      [callLimitlessApi];
    - the cache module: [calculateTTL];
    - the error utilities: [ErrorCode], [McpError], [isApiError],
      [getErrorStatusCode].

    JavaScript strings are taken as sequences of 8-bit units (their UTF-8
    form, which is what [URLSearchParams] serialises; their UTF-16 code
    units, which [Array.prototype.sort] compares, are decoded from it),
    numbers carried by requests as integers or NaN, and cache lifetimes as
    rationals. *)

From Stdlib Require Import ZArith QArith Qcanon Ascii String.
From stdpp Require Import base list strings sorting lexico pretty gmap.

Local Open Scope string_scope.
Local Open Scope Z_scope.
Local Open Scope list_scope.

(** ** JavaScript values *)

Module Js.

(** The numbers the client handles (status codes, page sizes, retry
    counts) are integers; [NaN] is kept because it is falsy. *)
Inductive number :=
| Fin (z : Z)
| NaN.

(** Values of type [unknown]: primitives, objects with data properties
    (in enumeration order), and callable objects, which [typeof] tells
    apart from the other objects.  A callable object carries the text
    that [String(f)] yields. *)
#[warnings="-register-all"]
Inductive value :=
| Undefined
| Null
| Bool (b : bool)
| Num (n : number)
| Str (s : string)
| Obj (props : list (string * value))
| Fun (src : string) (props : list (string * value)).

(** A [Record<string, unknown>]: own enumerable properties, in the order
    [Object.keys] and [Object.entries] enumerate them.  Property names
    of an object are pairwise distinct. *)
Definition object := list (string * value).

Definition keys (o : object) : list string := o.*1.

Definition wf (o : object) : Prop := NoDup (keys o).

Inductive type := TUndefined | TObject | TBoolean | TNumber | TString | TFunction.

Definition typeof (v : value) : type :=
  match v with
  | Undefined => TUndefined
  | Null => TObject
  | Bool _ => TBoolean
  | Num _ => TNumber
  | Str _ => TString
  | Obj _ => TObject
  | Fun _ _ => TFunction
  end.

Definition type_eqb (a b : type) : bool :=
  match a, b with
  | TUndefined, TUndefined | TObject, TObject | TBoolean, TBoolean
  | TNumber, TNumber | TString, TString | TFunction, TFunction => true
  | _, _ => false
  end.

(** [o[key]] on a property list. *)
Fixpoint get (key : string) (o : object) : value :=
  match o with
  | [] => Undefined
  | (k, v) :: o' => if String.eqb k key then v else get key o'
  end.

(** [key in o]. *)
Fixpoint has (key : string) (o : object) : bool :=
  match o with
  | [] => false
  | (k, _) :: o' => String.eqb k key || has key o'
  end.

(** [v.key] for a [v] that is neither [undefined] nor [null]: primitives
    have no such property. *)
Definition prop (v : value) (key : string) : value :=
  match v with
  | Obj ps | Fun _ ps => get key ps
  | _ => Undefined
  end.

(** [key in v]; the operator is only applied to objects (on a primitive
    it raises a TypeError, and every use is guarded by [typeof]). *)
Definition hasProperty (key : string) (v : value) : bool :=
  match v with
  | Obj ps | Fun _ ps => has key ps
  | _ => false
  end.

(** [v === null] *)
Definition isNull (v : value) : bool :=
  match v with
  | Null => true
  | _ => false
  end.

(** [v?.key] *)
Definition optprop (v : value) (key : string) : value :=
  match v with
  | Undefined | Null => Undefined
  | _ => prop v key
  end.

(** ToBoolean *)
Definition truthy (v : value) : bool :=
  match v with
  | Undefined | Null => false
  | Bool b => b
  | Num (Fin z) => negb (z =? 0)
  | Num NaN => false
  | Str s => negb (String.eqb s "")
  | Obj _ | Fun _ _ => true
  end.

(** [v !== undefined && v !== null] *)
Definition defined (v : value) : bool :=
  match v with
  | Undefined | Null => false
  | _ => true
  end.

(** The values that are not objects. *)
Definition primitive (v : value) : bool :=
  match v with
  | Obj _ | Fun _ _ => false
  | _ => true
  end.

(** [String(v)].  An integer is one below 10^21 in magnitude, printed in
    decimal form; an object converts as [Object.prototype.toString] does and
    a callable object as [Function.prototype.toString] does, which is what
    [String] gives for an object that inherits its [toString] from there. *)
Definition ToString (v : value) : string :=
  match v with
  | Undefined => "undefined"
  | Null => "null"
  | Bool true => "true"
  | Bool false => "false"
  | Num (Fin z) => pretty z
  | Num NaN => "NaN"
  | Str s => s
  | Obj _ => "[object Object]"
  | Fun src _ => src
  end.

End Js.

(** ** URLSearchParams *)

Module URLSearchParams.

(** The list of name-value pairs, in the order they were appended. *)
Definition t := list (string * string).

Definition empty : t := [].

Definition append (ps : t) (name value : string) : t :=
  (ps ++ [(name, value)])%list.

Definition hexdigit (n : N) : ascii :=
  match n with
  | 0 => "0" | 1 => "1" | 2 => "2" | 3 => "3" | 4 => "4" | 5 => "5"
  | 6 => "6" | 7 => "7" | 8 => "8" | 9 => "9" | 10 => "A" | 11 => "B"
  | 12 => "C" | 13 => "D" | 14 => "E" | _ => "F"
  end%char%N.

(** Bytes the application/x-www-form-urlencoded serialiser leaves as they
    are: ASCII letters and digits, and [*], [-], [.], [_]. *)
Definition unreserved (a : ascii) : bool :=
  let n := N_of_ascii a in
  ((48 <=? n) && (n <=? 57) || (65 <=? n) && (n <=? 90)
   || (97 <=? n) && (n <=? 122)
   || (n =? 42) || (n =? 45) || (n =? 46) || (n =? 95))%N.

Definition encodeByte (a : ascii) : string :=
  if Ascii.eqb a " " then "+"
  else if unreserved a then String a ""
  else let n := N_of_ascii a in
       String "%" (String (hexdigit (n / 16)) (String (hexdigit (n mod 16)) "")).

Fixpoint encode (s : string) : string :=
  match s with
  | "" => ""
  | String a s' => encodeByte a +:+ encode s'
  end.

Definition encodePair (p : string * string) : string :=
  encode p.1 +:+ "=" +:+ encode p.2.

(** The encoded [name=value] pairs of a parameter list, in order. *)
Definition encodedPairs (ps : t) : list string := encodePair <$> ps.

(** [ps.toString()] *)
Definition toString (ps : t) : string := String.concat "&" (encodedPairs ps).

End URLSearchParams.

(** ** Cache keys and query strings ([src/api/client.ts]) *)

(** The UTF-16 code units of a string given by its UTF-8 bytes: one unit
    for a character of one, two or three bytes, a surrogate pair for a
    character of four.  A byte that opens no character of a well-formed
    string, which no JavaScript string has, is read as U+FFFD. *)
Fixpoint codeUnits (s : string) : list N :=
  match s with
  | "" => []
  | String b0 s1 =>
      let n0 := N_of_ascii b0 in
      if (n0 <? 128)%N then n0 :: codeUnits s1
      else if (n0 <? 192)%N then 65533%N :: codeUnits s1
      else if (n0 <? 224)%N then
        match s1 with
        | String b1 s2 => ((n0 - 192) * 64 + (N_of_ascii b1 - 128))%N :: codeUnits s2
        | "" => [65533%N]
        end
      else if (n0 <? 240)%N then
        match s1 with
        | String b1 (String b2 s3) =>
            ((n0 - 224) * 4096 + (N_of_ascii b1 - 128) * 64 + (N_of_ascii b2 - 128))%N
            :: codeUnits s3
        | _ => [65533%N]
        end
      else
        match s1 with
        | String b1 (String b2 (String b3 s4)) =>
            let cp := ((n0 - 240) * 262144 + (N_of_ascii b1 - 128) * 4096
                       + (N_of_ascii b2 - 128) * 64 + (N_of_ascii b3 - 128))%N in
            (55296 + (cp - 65536) / 1024)%N :: (56320 + (cp - 65536) mod 1024)%N
            :: codeUnits s4
        | _ => [65533%N]
        end
  end.

(** The order of the default comparator of [Array.prototype.sort()]: strings
    are compared unit by unit on their UTF-16 code units, a proper prefix
    coming first.  Well-formed strings with the same code units are the same
    string; the second disjunct orders the other byte strings, so that the
    relation is a total order on all of them. *)
Definition codeUnitLe (s t : string) : Prop :=
  lexico (codeUnits s) (codeUnits t) ∨ (codeUnits s = codeUnits t ∧ String.le s t).

#[export] Instance codeUnitLe_dec : RelDecision codeUnitLe :=
  fun s t => or_dec _ _.

(** [Array.prototype.sort()] without a comparator.  Property names are
    distinct, so the result is the one ascending arrangement of the names. *)
Definition sort (l : list string) : list string := merge_sort codeUnitLe l.

(** The body of the [forEach] callbacks of [buildCacheKey] and
    [prepareQueryParams]: append the pair unless the value is [undefined]
    or [null]. *)
Definition appendDefined (ps : URLSearchParams.t) (key : string) (value : Js.value)
  : URLSearchParams.t :=
  if Js.defined value then URLSearchParams.append ps key (Js.ToString value) else ps.

(** The [cacheParams] that [buildCacheKey] fills: the keys are sorted, each
    value is read back from [qs]. *)
Definition cacheParams (qs : Js.object) : URLSearchParams.t :=
  foldl (fun ps key => let value := Js.get key qs in appendDefined ps key value)
        URLSearchParams.empty (sort (Js.keys qs)).

Definition buildCacheKey (path : string) (qs : Js.object) : string :=
  path +:+ "?" +:+ URLSearchParams.toString (cacheParams qs).

Definition prepareQueryParams (qs : Js.object) : URLSearchParams.t :=
  foldl (fun ps '(key, value) => appendDefined ps key value) URLSearchParams.empty qs.

(** The pair a property contributes to a parameter list, if any. *)
Definition pairOf (key : string) (value : Js.value) : option (string * string) :=
  if Js.defined value then Some (key, Js.ToString value) else None.

(** Parameters compared by name. *)
Definition keyLe (p q : string * string) : Prop := codeUnitLe p.1 q.1.

(** ** Error utilities *)

(** The string enum [ErrorCode]: members with the same text are the same
    value at run time. *)
Module ErrorCode.
Definition UNKNOWN_ERROR := "unknown_error".
Definition INVALID_REQUEST := "invalid_request".
Definition NOT_FOUND := "not_found".
Definition UNAUTHORIZED := "unauthorized".
Definition API_ERROR := "api_error".
Definition RATE_LIMITED := "rate_limited".
Definition TIMEOUT := "timeout".
Definition NotFound := "not_found".
Definition Unauthorized := "unauthorized".
Definition ServiceUnavailable := "service_unavailable".
Definition Internal := "internal_error".
Definition InvalidParams := "invalid_params".
End ErrorCode.

(** [class McpError extends Error] *)
Record McpError := {
  mcp_message : string;
  mcp_name : string;
  mcp_code : Js.value;
  mcp_httpStatus : Js.value;
}.

(** [new McpError(message, code, httpStatus)]: with a string first
    argument the arguments are taken in that order, otherwise in the legacy
    order [(code, message, metadata)]. *)
Definition newMcpError (message code httpStatus : Js.value) : McpError :=
  match message with
  | Js.Str m =>
      {| mcp_message := m;
         mcp_name := "McpError";
         mcp_code := if Js.truthy code then code else Js.Str ErrorCode.UNKNOWN_ERROR;
         mcp_httpStatus := httpStatus |}
  | _ =>
      {| mcp_message := Js.ToString (if Js.truthy code then code else Js.Str "");
         mcp_name := "McpError";
         mcp_code := message;
         mcp_httpStatus := Js.Undefined |}
  end.

(** [isApiError(error)] *)
Definition isApiError (error : Js.value) : bool :=
  Js.type_eqb (Js.typeof error) Js.TObject
  && negb (Js.isNull error)
  && (Js.hasProperty "statusCode" error
      || (Js.hasProperty "response" error
          && Js.type_eqb (Js.typeof (Js.prop error "response")) Js.TObject
          && negb (Js.isNull (Js.prop error "response")))
      || (Js.hasProperty "message" error
          && Js.type_eqb (Js.typeof (Js.prop error "message")) Js.TString)).

(** [getErrorStatusCode(error)] *)
Definition getErrorStatusCode (error : Js.value) : Js.value :=
  if negb (isApiError error) then Js.Undefined
  else if Js.truthy (Js.prop error "statusCode") then Js.prop error "statusCode"
  else if Js.truthy (Js.optprop (Js.prop error "response") "statusCode")
       then Js.optprop (Js.prop error "response") "statusCode"
  else Js.Undefined.

(** The claim's reading of the two places a status can sit in. *)
Definition directStatus (error : Js.value) : Js.value :=
  Js.optprop error "statusCode".

Definition nestedStatus (error : Js.value) : Js.value :=
  Js.optprop (Js.optprop error "response") "statusCode".

Definition statusByPlace (error : Js.value) : Js.value :=
  if Js.truthy (directStatus error) then directStatus error
  else if Js.truthy (nestedStatus error) then nestedStatus error
  else Js.Undefined.

Definition callable (v : Js.value) : bool :=
  Js.type_eqb (Js.typeof v) Js.TFunction.

(** ** Configuration *)

Record Multipliers := {
  METADATA : Qc;
  LISTINGS : Qc;
  SEARCH : Qc;
  SUMMARIES : Qc;
}.

Record LimitlessConfig := {
  API_KEY : string;
  API_BASE_URL : string;
  API_TIMEOUT_MS : Z;
  API_MAX_RETRIES : Z;
  CACHE_TTL : Qc;
  CACHE_CHECK_PERIOD : Z;
  CACHE_MAX_KEYS : Z;
  CACHE_TTL_MULTIPLIERS : Multipliers;
}.

(** The defaults of the configuration module, for a given API key. *)
Definition defaultConfig (key : string) : LimitlessConfig := {|
  API_KEY := key;
  API_BASE_URL := "https://api.limitless.ai/v1";
  API_TIMEOUT_MS := 120000;
  API_MAX_RETRIES := 3;
  CACHE_TTL := Q2Qc 300;
  CACHE_CHECK_PERIOD := 600;
  CACHE_MAX_KEYS := 500;
  CACHE_TTL_MULTIPLIERS :=
    {| METADATA := Q2Qc 3; LISTINGS := Q2Qc 2; SEARCH := Q2Qc (3 # 2); SUMMARIES := Q2Qc 4 |};
|}.

(** ** TTL policy (cache module) *)

(** [hay.includes(needle)] *)
Fixpoint includes (needle hay : string) : bool :=
  String.prefix needle hay
  || match hay with
     | "" => false
     | String _ hay' => includes needle hay'
     end.

(** [calculateTTL(path, queryParams)] *)
Definition calculateTTL (config : LimitlessConfig) (path : string)
    (queryParams : Js.object) : Qc :=
  let ttl := CACHE_TTL config in
  if includes "/lifelogs/" path && negb (Js.truthy (Js.get "includeMarkdown" queryParams))
  then (CACHE_TTL config * METADATA (CACHE_TTL_MULTIPLIERS config))%Qc
  else if String.eqb path "/lifelogs" && Js.truthy (Js.get "limit" queryParams)
  then (CACHE_TTL config * LISTINGS (CACHE_TTL_MULTIPLIERS config))%Qc
  else if Js.truthy (Js.get "query" queryParams)
  then (CACHE_TTL config * SEARCH (CACHE_TTL_MULTIPLIERS config))%Qc
  else ttl.

(** The request categories of the TTL policy, as the specification names
    them, and the test that selects each. *)
Inductive Category := MetadataRequest | ListingRequest | SearchRequest | DefaultRequest.

Definition isMetadata (path : string) (qs : Js.object) : bool :=
  includes "/lifelogs/" path && negb (Js.truthy (Js.get "includeMarkdown" qs)).

Definition isListing (path : string) (qs : Js.object) : bool :=
  String.eqb path "/lifelogs" && Js.truthy (Js.get "limit" qs).

Definition isSearch (qs : Js.object) : bool :=
  Js.truthy (Js.get "query" qs).

(** The first category, in the order metadata, listing, search, default,
    whose test succeeds. *)
Definition firstMatch (path : string) (qs : Js.object) : Category :=
  match find (fun c : Category * bool => c.2)
          [(MetadataRequest, isMetadata path qs);
           (ListingRequest, isListing path qs);
           (SearchRequest, isSearch qs)] with
  | Some (c, _) => c
  | None => DefaultRequest
  end.

Definition multiplier (config : LimitlessConfig) (c : Category) : Qc :=
  match c with
  | MetadataRequest => METADATA (CACHE_TTL_MULTIPLIERS config)
  | ListingRequest => LISTINGS (CACHE_TTL_MULTIPLIERS config)
  | SearchRequest => SEARCH (CACHE_TTL_MULTIPLIERS config)
  | DefaultRequest => 1%Qc
  end.

(** ** Response payloads (type definitions) *)

Module Types.

(** [LifelogResponse] is the declared type of a response body.  The body is
    cast to it unchecked ([await response.body.json() as LifelogResponse]),
    so at run time it is whatever value the JSON text denotes: an object as
    declared, or [null], a number, a boolean, a string. *)
Definition LifelogResponse : Type := Js.value.

End Types.

Abbreviation LifelogResponse := Types.LifelogResponse.

(** ** Errors raised inside the client *)

(** [{ statusCode?: number }], the wrapper an error may carry as its
    [response]. *)
Record ResponseWrapper := {
  wrapped_statusCode : option Js.number;
}.

(** An error object as the client's handlers read it:
    [{ response?: { statusCode: number }, statusCode?: number, message?: string }],
    with the [name] that tells the kinds of error apart. *)
Record ApiError := {
  name : string;
  message : option string;
  statusCode : option Js.number;
  response : option ResponseWrapper;
}.

(** [new Error(message)] *)
Definition newError (msg : string) : ApiError :=
  {| name := "Error"; message := Some msg; statusCode := None; response := None |}.

(** What [callLimitlessApi] can reject with: the error it caught, passed on,
    or an [McpError]. *)
Inductive Thrown :=
| Rethrown (e : ApiError)
| Mcp (e : McpError).

(** Truthiness and comparisons of an optional number, as JavaScript
    evaluates them on [undefined], NaN and integers. *)
Definition numTruthy (n : option Js.number) : bool :=
  match n with
  | Some (Js.Fin z) => negb (z =? 0)
  | _ => false
  end.

Definition numLt (n : option Js.number) (k : Z) : bool :=
  match n with
  | Some (Js.Fin z) => z <? k
  | _ => false
  end.

Definition numGe (n : option Js.number) (k : Z) : bool :=
  match n with
  | Some (Js.Fin z) => k <=? z
  | _ => false
  end.

Definition numIs (n : option Js.number) (k : Z) : bool :=
  match n with
  | Some (Js.Fin z) => z =? k
  | _ => false
  end.

Definition numToString (n : option Js.number) : string :=
  match n with
  | Some n => Js.ToString (Js.Num n)
  | None => "undefined"
  end.

(** ** The cache store *)

Module NodeCache.

(** Modelled from the spec: the store is an instance of the external
    [node-cache] package, whose code is not part of the repository.  An
    entry holds the value, its expiry and its insertion time. *)
Record CacheEntry := {
  value : LifelogResponse;
  expiresAt : Qc;
  insertedAt : Z;
}.

Record t := {
  entries : gmap string CacheEntry;
  hits : nat;
  misses : nat;
  maxKeys : Z;
}.

Definition expired (e : CacheEntry) (now : Z) : bool :=
  bool_decide (expiresAt e < Q2Qc (inject_Z now))%Qc.

(** Modelled from the spec: [get(key)] returns the value, or nothing if
    the key was never set or has expired, and counts a hit or a miss. *)
Definition get (c : t) (key : string) (now : Z) : option LifelogResponse * t :=
  match entries c !! key with
  | Some e =>
      if expired e now
      then (None, {| entries := entries c; hits := hits c;
                     misses := S (misses c); maxKeys := maxKeys c |})
      else (Some (value e), {| entries := entries c; hits := S (hits c);
                               misses := misses c; maxKeys := maxKeys c |})
  | None => (None, {| entries := entries c; hits := hits c;
                      misses := S (misses c); maxKeys := maxKeys c |})
  end.

(** The capacity error: it carries no HTTP status. *)
Definition CapacityExceeded : ApiError :=
  {| name := "ECACHEFULL";
     message := Some "Cache max keys amount exceeded";
     statusCode := None;
     response := None |}.

Definition full (c : t) : bool := maxKeys c <=? Z.of_nat (size (entries c)).

(** Modelled from the spec: [set(key, value, ttlSeconds)] fails with the
    capacity error if the store is at its maximum key count and the key
    is new; otherwise it replaces the whole entry. *)
Definition set (c : t) (key : string) (v : LifelogResponse) (ttl : Qc) (now : Z)
  : ApiError + t :=
  if full c && bool_decide (entries c !! key = None)
  then inl CapacityExceeded
  else inr {| entries :=
                <[key := {| value := v;
                            expiresAt := (Q2Qc (inject_Z now) + ttl * Q2Qc 1000)%Qc;
                            insertedAt := now |}]> (entries c);
              hits := hits c; misses := misses c; maxKeys := maxKeys c |}.

(** Modelled from the spec: a store that holds nothing yet. *)
Definition create (maxKeys : Z) : t :=
  {| entries := ∅; hits := 0; misses := 0; maxKeys := maxKeys |}.

End NodeCache.

(** ** The network, the clock and the client's effects *)

Module Undici.

(** What [request] resolves with: the status line and the outcome of
    reading the body as JSON. *)
Record ResponseData := {
  statusCode : Z;
  body : ApiError + LifelogResponse;
}.

(** [request(url, options)] resolves with whatever response arrived, or
    rejects with an error. *)
Inductive outcome :=
| Resolved (r : ResponseData)
| Rejected (e : ApiError).

End Undici.

(** The upstream: the outcome of the n-th request issued (from 0), given
    its URL. *)
Definition Network := nat → string → Undici.outcome.

Inductive Event :=
| Sleep (ms : Z)
| Request (url : string).

Definition isRequest (e : Event) : bool :=
  match e with
  | Request _ => true
  | Sleep _ => false
  end.

(** The network attempts recorded in a trace. *)
Definition attempts (tr : list Event) : nat := length (filter isRequest tr).

(** The sleeps recorded in a trace. *)
Definition sleeps (tr : list Event) : list Z :=
  omap (fun e => match e with Sleep ms => Some ms | Request _ => None end) tr.

Record World := {
  cache : NodeCache.t;
  now : Z;
  trace : list Event;
}.

(** How a computation ends: with a value or with a raised error. *)
Inductive Completion (E A : Type) :=
| Normal (a : A)
| Abrupt (e : E).
Arguments Normal {E A} a.
Arguments Abrupt {E A} e.

(** Computations over the world that may raise an [E]; [None] only when the
    loop bound of the model is used up. *)
Definition M (E A : Type) : Type := World → option (Completion E A * World).

#[export] Instance M_ret {E} : MRet (M E) :=
  fun A a w => Some (Normal a, w).

#[export] Instance M_bind {E} : MBind (M E) :=
  fun A B f m w =>
    match m w with
    | Some (Normal a, w') => f a w'
    | Some (Abrupt e, w') => Some (Abrupt e, w')
    | None => None
    end.

Definition throw {E A} (e : E) : M E A :=
  fun w => Some (Abrupt e, w).

Definition tryCatch {E E' A} (m : M E A) (handler : E → M E' A) : M E' A :=
  fun w =>
    match m w with
    | Some (Normal a, w') => Some (Normal a, w')
    | Some (Abrupt e, w') => handler e w'
    | None => None
    end.

Definition outOfFuel {E A} : M E A := fun _ => None.

Section Client.

Context (config : LimitlessConfig) (network : Network).

(** [await new Promise(resolve => setTimeout(resolve, ms))] *)
Definition sleep {E} (ms : Z) : M E unit :=
  fun w => Some (Normal (),
                 {| cache := cache w; now := now w + ms; trace := trace w ++ [Sleep ms] |}).

(** [await request(url, requestOptions)] *)
Definition request (url : string) : M ApiError Undici.ResponseData :=
  fun w =>
    let w' := {| cache := cache w; now := now w; trace := trace w ++ [Request url] |} in
    match network (attempts (trace w)) url with
    | Undici.Resolved r => Some (Normal r, w')
    | Undici.Rejected e => Some (Abrupt e, w')
    end.

(** [await response.body.json()] *)
Definition json (response : Undici.ResponseData) : M ApiError LifelogResponse :=
  match Undici.body response with
  | inr d => mret d
  | inl e => throw e
  end.

(** [cache.get<LifelogResponse>(cacheKey)]: [undefined] when the store has
    nothing to give. *)
Definition cacheGet {E} (cacheKey : string) : M E LifelogResponse :=
  fun w =>
    let '(r, c) := NodeCache.get (cache w) cacheKey (now w) in
    Some (Normal (default Js.Undefined r),
          {| cache := c; now := now w; trace := trace w |}).

(** [cache.set(cacheKey, data, ttl)] *)
Definition cacheSet (cacheKey : string) (d : LifelogResponse) (ttl : Qc) : M ApiError unit :=
  fun w =>
    match NodeCache.set (cache w) cacheKey d ttl (now w) with
    | inr c => Some (Normal (), {| cache := c; now := now w; trace := trace w |})
    | inl e => Some (Abrupt e, w)
    end.

(** The retry loop of [callLimitlessApi], from a given [retryCount] and
    [lastError]; it ends with the [response] and [lastError] variables.
    [fuel] bounds the iterations. *)
Fixpoint retryLoop (fuel : nat) (url : string) (retryCount : Z)
    (lastError : option ApiError)
  : M ApiError (option Undici.ResponseData * option ApiError) :=
  match fuel with
  | O => outOfFuel
  | S fuel' =>
      if retryCount <=? API_MAX_RETRIES config then
        tryCatch
          ((if 0 <? retryCount
            then sleep (2 ^ (retryCount - 1) * 1000)
            else mret ());;
           response ← request url;
           mret (Some response, lastError))
          (fun err =>
             let lastError := Some err in
             if numTruthy (statusCode err) && numLt (statusCode err) 500
             then throw err
             else
               let retryCount := retryCount + 1 in
               if API_MAX_RETRIES config <? retryCount
               then throw err
               else retryLoop fuel' url retryCount lastError)
      else mret (None, lastError)
  end.

(** The URL of the request: [`${config.API_BASE_URL}${path}?${params}`] *)
Definition requestUrl (path : string) (params : URLSearchParams.t) : string :=
  API_BASE_URL config +:+ path +:+ "?" +:+ URLSearchParams.toString params.

(** The handler of the outer [try]: copy the wrapped status onto the
    error, then map it to an [McpError] or pass it on. *)
Definition mapError (path : string) (error : ApiError) : Thrown :=
  let err :=
    match response error with
    | Some r => {| name := name error; message := message error;
                   statusCode := wrapped_statusCode r; response := response error |}
    | None => error
    end in
  if numTruthy (statusCode err) then
    if numIs (statusCode err) 404 then
      Mcp (newMcpError (Js.Str ("Resource not found: " +:+ path))
                       (Js.Str ErrorCode.NOT_FOUND) Js.Undefined)
    else if numIs (statusCode err) 401 || numIs (statusCode err) 403 then
      Mcp (newMcpError (Js.Str "Unauthorized access to Limitless API")
                       (Js.Str ErrorCode.UNAUTHORIZED) Js.Undefined)
    else if numGe (statusCode err) 500 then
      Mcp (newMcpError
             (Js.Str ("Limitless API service error: " +:+ numToString (statusCode err)))
             (Js.Str ErrorCode.API_ERROR) Js.Undefined)
    else Rethrown err
  else Rethrown err.

(** The [try] block after the retry loop: check the response, read the
    body, store it when caching is on. *)
Definition afterLoop (path : string) (qs : Js.object) (useCache : bool)
    (cacheKey : string) (response : option Undici.ResponseData)
    (lastError : option ApiError) : M ApiError LifelogResponse :=
  match response with
  | None =>
      throw (default (newError ("API call failed with no response: " +:+ path))
                     lastError)
  | Some response =>
      if (Undici.statusCode response =? 0)
         || (Undici.statusCode response <? 200)
         || (300 <=? Undici.statusCode response)
      then throw (newError ("HTTP error: " +:+ pretty (Undici.statusCode response)))
      else
        d ← json response;
        (if useCache
         then
           let ttl := calculateTTL config path qs in
           cacheSet cacheKey d ttl
         else mret ());;
        mret d
  end.

(** [callLimitlessApi(path, qs, useCache)].  The test [if (cachedData)] is a
    test of truthiness: what the store gives is returned only if it is
    truthy, and a stored [null], [0], [false] or empty string is fetched
    again.  The messages written to the console are left out. *)
Definition callLimitlessApi (fuel : nat) (path : string) (qs : Js.object)
    (useCache : bool) : M Thrown LifelogResponse :=
  let cacheKey := buildCacheKey path qs in
  let fetch : M Thrown LifelogResponse :=
    let params := prepareQueryParams qs in
    tryCatch
      ('(response, lastError) ← retryLoop fuel (requestUrl path params) 0 None;
       afterLoop path qs useCache cacheKey response lastError)
      (fun error => throw (mapError path error)) in
  if useCache then
    cachedData ← cacheGet cacheKey;
    if Js.truthy cachedData then mret cachedData else fetch
  else fetch.

(** Iterations that always suffice for the retry loop. *)
Definition enoughFuel : nat := S (Z.to_nat (API_MAX_RETRIES config + 1)).

End Client.

(** The world after the cache lookup that opens [callLimitlessApi]: only
    the hit and miss counters of the store have moved. *)
Definition lookedUp (useCache : bool) (cacheKey : string) (w : World) : World :=
  if useCache
  then {| cache := (NodeCache.get (cache w) cacheKey (now w)).2;
          now := now w; trace := trace w |}
  else w.

(** An error the loop retries on: no truthy status below 500. *)
Definition retryable (e : ApiError) : bool :=
  negb (numTruthy (statusCode e) && numLt (statusCode e) 500).

(** The events of the attempt made with [retryCount = c]. *)
Definition attemptEvents (url : string) (c : nat) : list Event :=
  match c with
  | O => [Request url]
  | S _ => [Sleep (1000 * 2 ^ (Z.of_nat c - 1)); Request url]
  end.

(** The events of [j] attempts in a row, from [retryCount = c]. *)
Definition loopEvents (url : string) (c j : nat) : list Event :=
  flat_map (attemptEvents url) (seq c j).

(** The events a trace with [k] retries consists of: the first request,
    then for each retry n = 1..k a sleep of [1000 * 2^(n-1)] ms followed by
    the request. *)
Definition backoffTrace (url : string) (k : nat) : list Event :=
  Request url :: flat_map (fun n : nat => [Sleep (1000 * 2 ^ (Z.of_nat n - 1)); Request url]) (seq 1 k).

(** ** Sample data *)

Definition sampleBody : LifelogResponse :=
  Js.Obj [("data", Js.Obj [("lifelog", Js.Obj [("id", Js.Str "42");
                                                 ("title", Js.Str "Standup")])])].

(** A world with an empty store of the given capacity. *)
Definition freshWorld (maxKeys : Z) : World :=
  {| cache := NodeCache.create maxKeys; now := 0; trace := [] |}.

(** A world whose store holds one entry and has room for no more. *)
Definition fullWorld : World :=
  {| cache :=
       {| NodeCache.entries :=
            {[ "/lifelogs?" := {| NodeCache.value := sampleBody;
                                  NodeCache.expiresAt := Q2Qc 300000;
                                  NodeCache.insertedAt := 0 |} ]};
          NodeCache.hits := 0; NodeCache.misses := 1; NodeCache.maxKeys := 1 |};
     now := 0;
     trace := [] |}.

(** An upstream that answers every request with the given status; the
    transport resolves with the response. *)
Definition respond (status : Z) : Network :=
  fun _ _ => Undici.Resolved {| Undici.statusCode := status; Undici.body := inr sampleBody |}.



(** The error of a transport that rejects on a status. *)
Definition statusError (status : Z) : ApiError :=
  {| name := "ResponseStatusCodeError";
     message := Some "Response status code";
     statusCode := Some (Js.Fin status);
     response := None |}.

Definition reject (status : Z) : Network :=
  fun _ _ => Undici.Rejected (statusError status).

(** ** The rest of the error utilities *)

(** [getErrorMessage(error)] *)
Definition getErrorMessage (error : Js.value) : Js.value :=
  if negb (isApiError error) then Js.Str "Unknown error"
  else if Js.truthy (Js.prop error "message") then Js.prop error "message"
  else Js.Str "Unknown error".

(** Writing a property the way an object literal does after a spread: an
    existing name keeps its place and takes the new value, a new name goes
    last. *)
Fixpoint setProp (key : string) (v : Js.value) (o : Js.object) : Js.object :=
  match o with
  | [] => [(key, v)]
  | (k, x) :: o' =>
      if String.eqb k key then (k, v) :: o' else (k, x) :: setProp key v o'
  end.

(** [enhanceError(error)].  The spread is only reached by values that pass
    [isApiError], which are objects, and copies the properties of the
    object; the [String(error)] of the first branch is as [Js.ToString] gives
    it. *)
Definition enhanceError (error : Js.value) : Js.value :=
  if negb (isApiError error) then Js.Obj [("message", Js.Str (Js.ToString error))]
  else if negb (Js.truthy (Js.prop error "statusCode"))
          && Js.truthy (Js.optprop (Js.prop error "response") "statusCode")
  then
    match error with
    | Js.Obj ps =>
        Js.Obj (setProp "statusCode" (Js.optprop (Js.prop error "response") "statusCode") ps)
    | _ => error
    end
  else error.

(** ** Cache tags (cache module) *)

(** [getCacheTags(path, queryParams)] *)
Definition getCacheTags (path : string) (queryParams : Js.object) : list string :=
  if includes "/lifelogs/" path then
    ["single_lifelog"]
    ++ (if Js.truthy (Js.get "includeMarkdown" queryParams)
        then ["full_content"]
        else ["metadata_only"])
  else if String.eqb path "/lifelogs" then
    ["lifelog_listings"]
    ++ (if Js.truthy (Js.get "date" queryParams)
        then ["date:" +:+ Js.ToString (Js.get "date" queryParams)]
        else [])
  else [].

(** ** The error handler of the lifelog tools *)

(** An error object of the client as a value: the fields that are set are
    its properties. *)
Definition wrapperToJs (r : ResponseWrapper) : Js.value :=
  Js.Obj (match wrapped_statusCode r with
          | Some n => [("statusCode", Js.Num n)]
          | None => []
          end).

Definition toJs (e : ApiError) : Js.value :=
  Js.Obj
    ([("name", Js.Str (name e))]
     ++ match message e with Some m => [("message", Js.Str m)] | None => [] end
     ++ match statusCode e with Some n => [("statusCode", Js.Num n)] | None => [] end
     ++ match response e with Some r => [("response", wrapperToJs r)] | None => [] end).

(** The number a status value is, if it is one: the statuses of the
    client's errors are numbers or absent. *)
Definition numberOf (v : Js.value) : option Js.number :=
  match v with
  | Js.Num n => Some n
  | _ => None
  end.

(** The [catch] block of the [get_lifelog] tool, applied to what
    [callLimitlessApi] raised; it yields the [McpError] the tool raises. *)
Definition lifelogErrorHandler (id : string) (error : Thrown) : McpError :=
  match error with
  | Mcp e => e
  | Rethrown e =>
      let error := toJs e in
      let statusCode := getErrorStatusCode error in
      let generic :=
        newMcpError
          (Js.Str ("Error retrieving lifelog " +:+ id +:+ ": "
                   +:+ Js.ToString (getErrorMessage error)))
          (Js.Str ErrorCode.Internal) Js.Undefined in
      if Js.truthy statusCode then
        if numIs (numberOf statusCode) 404 then
          newMcpError (Js.Str ("Lifelog with ID " +:+ id +:+ " not found"))
                      (Js.Str ErrorCode.NotFound) Js.Undefined
        else if numIs (numberOf statusCode) 401 || numIs (numberOf statusCode) 403 then
          newMcpError (Js.Str "Unauthorized access to Limitless API")
                      (Js.Str ErrorCode.Unauthorized) Js.Undefined
        else if numGe (numberOf statusCode) 500 then
          newMcpError
            (Js.Str ("Limitless API service error: " +:+ Js.ToString statusCode))
            (Js.Str ErrorCode.ServiceUnavailable) Js.Undefined
        else generic
      else generic
  end.

(** The effective status of an error in the client's handler: the wrapped
    one when the error has a [response], its own otherwise. *)
Definition effectiveStatus (e : ApiError) : option Js.number :=
  match response e with
  | Some r => wrapped_statusCode r
  | None => statusCode e
  end.

(** An upstream that rejects every request with the given error. *)
Definition rejectWith (e : ApiError) : Network :=
  fun _ _ => Undici.Rejected e.

(** A connection error: no status, no response. *)
Definition connectError : ApiError :=
  {| name := "ConnectTimeoutError";
     message := Some "Connect Timeout Error";
     statusCode := None;
     response := None |}.

(** An error whose status sits in its [response] only. *)
Definition wrappedError (status : Z) : ApiError :=
  {| name := "Error";
     message := Some "Request failed";
     statusCode := None;
     response := Some {| wrapped_statusCode := Some (Js.Fin status) |} |}.

(** The error the lifelog tools raise when the body holds no lifelog:
    [new McpError(ErrorCode.NotFound, `No lifelog found with ID: ${id}`, { id })]. *)
Definition noLifelogFound (id : string) : McpError :=
  newMcpError (Js.Str ErrorCode.NotFound)
              (Js.Str ("No lifelog found with ID: " +:+ id))
              (Js.Obj [("id", Js.Str id)]).

(** The members of [ErrorCode]. *)
Definition errorCodes : list string :=
  [ErrorCode.UNKNOWN_ERROR; ErrorCode.INVALID_REQUEST; ErrorCode.NOT_FOUND;
   ErrorCode.UNAUTHORIZED; ErrorCode.API_ERROR; ErrorCode.RATE_LIMITED;
   ErrorCode.TIMEOUT; ErrorCode.NotFound; ErrorCode.Unauthorized;
   ErrorCode.ServiceUnavailable; ErrorCode.Internal; ErrorCode.InvalidParams].

(** The status [getErrorStatusCode] finds on an error object of the
    client: its own when truthy, else the wrapped one when truthy. *)
Definition statusOf (e : ApiError) : option Js.number :=
  if numTruthy (statusCode e) then statusCode e
  else match response e with
       | Some r => if numTruthy (wrapped_statusCode r) then wrapped_statusCode r else None
       | None => None
       end.

(** The codes the client gives to the errors it builds. *)
Definition clientCodes : list Js.value :=
  [Js.Str ErrorCode.NOT_FOUND; Js.Str ErrorCode.UNAUTHORIZED; Js.Str ErrorCode.API_ERROR].

(** Membership in a list of literals. *)
Ltac in_tags := repeat first [apply list_elem_of_here | apply list_elem_of_further].

Ltac not_in_tags H :=
  repeat (apply elem_of_cons in H as [H|H]; [simpl in H; discriminate H|]);
  by apply elem_of_nil in H.

(** The message [getErrorMessage] finds on an error object of the client. *)
Definition messageOrUnknown (e : ApiError) : string :=
  match message e with
  | Some m => if String.eqb m "" then "Unknown error" else m
  | None => "Unknown error"
  end.

(** The error the [get_lifelog] handler falls back to. *)
Definition genericLifelogError (id : string) (e : ApiError) : McpError :=
  newMcpError (Js.Str ("Error retrieving lifelog " +:+ id +:+ ": " +:+ messageOrUnknown e))
              (Js.Str ErrorCode.Internal) Js.Undefined.

(** Whether a character occurs in a string. *)
Fixpoint occurs (c : ascii) (s : string) : bool :=
  match s with
  | "" => false
  | String a s' => Ascii.eqb a c || occurs c s'
  end.

(** The default configuration with another retry budget. *)
Definition configWithRetries (n : Z) : LimitlessConfig :=
  {| API_KEY := "key";
     API_BASE_URL := API_BASE_URL (defaultConfig "key");
     API_TIMEOUT_MS := API_TIMEOUT_MS (defaultConfig "key");
     API_MAX_RETRIES := n;
     CACHE_TTL := CACHE_TTL (defaultConfig "key");
     CACHE_CHECK_PERIOD := CACHE_CHECK_PERIOD (defaultConfig "key");
     CACHE_MAX_KEYS := CACHE_MAX_KEYS (defaultConfig "key");
     CACHE_TTL_MULTIPLIERS := CACHE_TTL_MULTIPLIERS (defaultConfig "key") |}.


(** ** The cache tool *)

(** Modelled from the spec: the keys the store holds, and the removal of a
    key ([keys()] and [del(key)] of the external [node-cache] package). *)
Definition storeKeys (c : NodeCache.t) : list string :=
  (map_to_list (NodeCache.entries c)).*1.

Definition storeDel (c : NodeCache.t) (key : string) : NodeCache.t :=
  {| NodeCache.entries := delete key (NodeCache.entries c);
     NodeCache.hits := NodeCache.hits c;
     NodeCache.misses := NodeCache.misses c;
     NodeCache.maxKeys := NodeCache.maxKeys c |}.

(** The type the [stats] action of [manage_cache] gives to a key. *)
Definition keyType (key : string) : string :=
  if includes "/lifelogs/" key then
    if includes "includeMarkdown=true" key then "full_lifelog" else "lifelog_metadata"
  else if String.prefix "/lifelogs" key then
    if includes "date=" key then "date_filtered_listings" else "lifelog_listings"
  else if includes "query=" key then "search_results"
  else "other".

(** The filter of the [clear_type] action: whether a key is of the type to
    clear. *)
Definition matchesType (type key : string) : bool :=
  if String.eqb type "full_lifelog" && includes "/lifelogs/" key
     && includes "includeMarkdown=true" key then true
  else if String.eqb type "metadata" && includes "/lifelogs/" key
          && negb (includes "includeMarkdown=true" key) then true
  else if String.eqb type "listings" && String.prefix "/lifelogs" key
          && negb (includes "/lifelogs/" key) then true
  else if String.eqb type "search" && includes "query=" key then true
  else if includes type key then true
  else false.

(** The [clear_type] action of [manage_cache]: without a type (absent or
    empty) an error is thrown, otherwise the keys that the filter matches are
    removed; the result is their number and the store left. *)
Definition clearType (type : option string) (c : NodeCache.t)
  : McpError + (nat * NodeCache.t) :=
  match type with
  | Some (String _ _ as type) =>
      let allKeys := storeKeys c in
      let keysToDelete := filter (fun key => matchesType type key) allKeys in
      inr (length keysToDelete, foldl storeDel c keysToDelete)
  | _ =>
      inl (newMcpError
             (Js.Str ErrorCode.InvalidParams)
             (Js.Str "Type parameter is required for clear_type action")
             (Js.Obj [("action", Js.Str "clear_type");
                      ("type", match type with
                               | Some t => Js.Str t
                               | None => Js.Undefined
                               end)]))
  end.

(** The count of keys by type of the [stats] action. *)
Definition keysByType (keys : list string) : gmap string nat :=
  foldl (fun acc key =>
           let type := keyType key in
           <[type := (default 0 (acc !! type) + 1)%nat]> acc)
        ∅ keys.

(** The types that [stats] gives. *)
Definition keyTypes : list string :=
  ["full_lifelog"; "lifelog_metadata"; "date_filtered_listings";
   "lifelog_listings"; "search_results"; "other"].

(** A store that holds a listing, a lifelog and a full lifelog. *)
Definition sampleStore : NodeCache.t :=
  {| NodeCache.entries :=
       list_to_map
         ((fun key => (key, {| NodeCache.value := sampleBody;
                                NodeCache.expiresAt := Q2Qc 300000;
                                NodeCache.insertedAt := 0 |}))
          <$> ["/lifelogs?limit=25"; "/lifelogs/abc?"; "/lifelogs/abc?includeMarkdown=true"]);
     NodeCache.hits := 0;
     NodeCache.misses := 0;
     NodeCache.maxKeys := 500 |}.

(** * Properties *)

(** ** Cache keys *)

#[export] Instance codeUnitLe_trans : Transitive codeUnitLe.
Proof.
  intros s t u [Hst|[Hst Hle]] [Htu|[Htu Hle']].
  - left. by etrans.
  - left. by rewrite <-Htu.
  - left. by rewrite Hst.
  - right. split; [congruence|]. by etrans.
Qed.

#[export] Instance codeUnitLe_total : Total codeUnitLe.
Proof.
  intros s t. destruct (trichotomy lexico (codeUnits s) (codeUnits t)) as [Hlt|[Heq|Hgt]].
  - left. by left.
  - destruct (total String.le s t); [left|right]; right; by split.
  - right. by left.
Qed.

#[export] Instance codeUnitLe_anti_symm : AntiSymm (=) codeUnitLe.
Proof.
  intros s t [Hst|[Hst Hle]] [Hts|[Hts Hle']].
  - destruct (irreflexivity lexico (codeUnits s)). by etrans.
  - rewrite Hts in Hst. by destruct (irreflexivity lexico (codeUnits s)).
  - rewrite Hst in Hts. by destruct (irreflexivity lexico (codeUnits t)).
  - by apply (anti_symm String.le).
Qed.

Section CacheKey.

Lemma appendDefined_pairOf ps key value :
  appendDefined ps key value = ps ++ option_list (pairOf key value).
Proof.
  unfold appendDefined, pairOf, URLSearchParams.append.
  destruct (Js.defined value); simpl; [done | by rewrite app_nil_r].
Qed.

Lemma foldl_appendDefined {A} (f : A → option (string * string))
    (g : URLSearchParams.t → A → URLSearchParams.t) (l : list A) acc :
  (∀ ps x, g ps x = ps ++ option_list (f x)) →
  foldl g acc l = acc ++ omap f l.
Proof.
  intros Hg. revert acc. induction l as [|x l IH]; intros acc; simpl.
  - by rewrite app_nil_r.
  - rewrite IH, Hg, <-app_assoc. f_equal. by destruct (f x).
Qed.

Lemma cacheParams_omap qs :
  cacheParams qs = omap (fun key => pairOf key (Js.get key qs)) (sort (Js.keys qs)).
Proof.
  unfold cacheParams. rewrite (foldl_appendDefined (fun key => pairOf key (Js.get key qs))).
  - done.
  - intros ps x. apply appendDefined_pairOf.
Qed.

Lemma prepareQueryParams_omap qs :
  prepareQueryParams qs = omap (fun kv : string * Js.value => pairOf kv.1 kv.2) qs.
Proof.
  unfold prepareQueryParams.
  rewrite (foldl_appendDefined (fun kv : string * Js.value => pairOf kv.1 kv.2)).
  - done.
  - intros ps [k v]. apply appendDefined_pairOf.
Qed.

Lemma get_elem_of qs k v :
  Js.wf qs → (k, v) ∈ qs → Js.get k qs = v.
Proof.
  unfold Js.wf, Js.keys. induction qs as [|[k' v'] qs IH]; intros Hnd Hin.
  - by apply elem_of_nil in Hin.
  - simpl in *. apply NoDup_cons in Hnd as [Hk' Hnd].
    apply elem_of_cons in Hin as [Heq|Hin].
    + injection Heq as -> ->. by rewrite String.eqb_refl.
    + destruct (String.eqb_spec k' k) as [->|_].
      * exfalso. apply Hk'. apply list_elem_of_fmap. by exists (k, v).
      * by apply IH.
Qed.

Lemma omap_keys_get (qs l : Js.object) :
  (∀ kv, kv ∈ l → Js.get kv.1 qs = kv.2) →
  omap (fun key => pairOf key (Js.get key qs)) (Js.keys l)
  = omap (fun kv : string * Js.value => pairOf kv.1 kv.2) l.
Proof.
  unfold Js.keys. induction l as [|kv l IH]; intros Hget; csimpl; [done|].
  rewrite Hget by apply list_elem_of_here. rewrite IH; [done|].
  intros kv' Hin. apply Hget. by apply list_elem_of_further.
Qed.

(** The request's parameters are those of the cache key, up to order. *)
Lemma cacheParams_Permutation qs :
  Js.wf qs → cacheParams qs ≡ₚ prepareQueryParams qs.
Proof.
  intros Hwf. rewrite cacheParams_omap, prepareQueryParams_omap.
  unfold sort. rewrite merge_sort_Permutation.
  rewrite omap_keys_get; [done|].
  intros [k v] Hin. by apply get_elem_of.
Qed.

Lemma StronglySorted_omap_keyLe (f : string → option (string * string)) l :
  (∀ k p, f k = Some p → p.1 = k) →
  StronglySorted codeUnitLe l → StronglySorted keyLe (omap f l).
Proof.
  intros Hf. induction 1 as [|k l Hl IH Hk]; simpl; [constructor|].
  destruct (f k) as [p|] eqn:Hp; [|done].
  constructor; [done|]. apply Forall_forall. intros q Hq.
  apply list_elem_of_omap in Hq as (k' & Hk' & Hq).
  unfold keyLe. rewrite (Hf _ _ Hp), (Hf _ _ Hq).
  rewrite Forall_forall in Hk. by apply Hk.
Qed.

Lemma cacheParams_sorted qs : StronglySorted keyLe (cacheParams qs).
Proof.
  rewrite cacheParams_omap. apply StronglySorted_omap_keyLe.
  - intros k p. unfold pairOf. destruct (Js.defined _); [|done]. by intros [= <-].
  - apply StronglySorted_merge_sort; apply _.
Qed.

Lemma prepareQueryParams_elem_of qs p :
  p ∈ prepareQueryParams qs ↔
  ∃ v, (p.1, v) ∈ qs ∧ Js.defined v = true ∧ p.2 = Js.ToString v.
Proof.
  rewrite prepareQueryParams_omap, list_elem_of_omap. split.
  - intros ([k v] & Hin & Hp). unfold pairOf in Hp. simpl in Hp.
    destruct (Js.defined v) eqn:Hd; [|done]. injection Hp as <-. by exists v.
  - intros (v & Hin & Hd & Hp). exists (p.1, v). split; [done|].
    unfold pairOf. simpl. rewrite Hd, <-Hp. by destruct p.
Qed.

(** The parameters of the cache key depend only on which pairs the query
    sends. *)
Lemma cacheParams_unique qs1 qs2 :
  Js.wf qs1 → Js.wf qs2 →
  prepareQueryParams qs1 ≡ₚ prepareQueryParams qs2 →
  cacheParams qs1 = cacheParams qs2.
Proof.
  intros Hwf1 Hwf2 Hperm.
  apply (StronglySorted_unique_strong keyLe); try apply cacheParams_sorted.
  - intros p q Hp Hq Hpq Hqp.
    assert (p.1 = q.1) as Hk by (by apply (anti_symm codeUnitLe)).
    rewrite cacheParams_Permutation in Hp, Hq by done.
    rewrite <-Hperm in Hq.
    apply prepareQueryParams_elem_of in Hp as (v & Hv & _ & Hp2).
    apply prepareQueryParams_elem_of in Hq as (v' & Hv' & _ & Hq2).
    rewrite <-Hk in Hv'.
    apply (get_elem_of _ _ _ Hwf1) in Hv, Hv'.
    destruct p, q; simpl in *. congruence.
  - by rewrite !cacheParams_Permutation.
Qed.

End CacheKey.

(** C1: for every path and every two parameter maps holding the same
    (name, value) pairs in any insertion order, [buildCacheKey] returns the
    same key. *)
Theorem buildCacheKey_insertion_order (path : string) (qs1 qs2 : Js.object) :
  Js.wf qs1 → qs1 ≡ₚ qs2 → buildCacheKey path qs1 = buildCacheKey path qs2.
Proof.
  intros Hwf Hperm. unfold buildCacheKey.
  rewrite (cacheParams_unique qs1 qs2); [done|done| |].
  - unfold Js.wf, Js.keys. by rewrite <-Hperm.
  - rewrite !prepareQueryParams_omap. by rewrite Hperm.
Qed.

Lemma buildCacheKey_insertion_order_witness :
  Js.wf [("a", Js.Num (Js.Fin 1)); ("b", Js.Num (Js.Fin 2))]
  ∧ [("a", Js.Num (Js.Fin 1)); ("b", Js.Num (Js.Fin 2))]
    ≡ₚ [("b", Js.Num (Js.Fin 2)); ("a", Js.Num (Js.Fin 1))]
  ∧ buildCacheKey "/lifelogs" [("a", Js.Num (Js.Fin 1)); ("b", Js.Num (Js.Fin 2))]
    = buildCacheKey "/lifelogs" [("b", Js.Num (Js.Fin 2)); ("a", Js.Num (Js.Fin 1))].
Proof.
  assert (Hwf : Js.wf [("a", Js.Num (Js.Fin 1)); ("b", Js.Num (Js.Fin 2))]).
  { unfold Js.wf. simpl. apply (bool_decide_unpack _). vm_compute. exact I. }
  split; [exact Hwf|]. split; [apply perm_swap|].
  apply buildCacheKey_insertion_order; [exact Hwf | apply perm_swap].
Defined.

Lemma wf_filter (P : string * Js.value → Prop) `{!∀ kv, Decision (P kv)} qs :
  Js.wf qs → Js.wf (filter P qs).
Proof.
  unfold Js.wf, Js.keys. intros Hwf.
  eapply sublist_NoDup; [exact Hwf|].
  apply fmap_sublist, sublist_filter.
Qed.

Lemma prepareQueryParams_filter qs :
  prepareQueryParams (filter (fun kv : string * Js.value => Js.defined kv.2) qs)
  = prepareQueryParams qs.
Proof.
  rewrite !prepareQueryParams_omap.
  induction qs as [|[k v] qs IH]; [done|].
  destruct (Js.defined v) eqn:Hd.
  - rewrite (filter_cons_True (fun kv : string * Js.value => Is_true (Js.defined kv.2)))
      by (simpl; by rewrite Hd).
    csimpl. destruct (pairOf k v); [f_equal|]; exact IH.
  - rewrite (filter_cons_False (fun kv : string * Js.value => Is_true (Js.defined kv.2)))
      by (simpl; rewrite Hd; exact (fun H => H)).
    csimpl. unfold pairOf at 2. rewrite Hd. exact IH.
Qed.

(** C2: [buildCacheKey] drops every parameter whose value is undefined or
    null, so the key of [{a: undefined, b: 2}] is the key of [{b: 2}], and
    the key of the empty map is the path followed by a question mark; the
    function is total. *)
Theorem buildCacheKey_drops_undefined (path : string) (qs : Js.object) :
  Js.wf qs →
  buildCacheKey path qs
  = buildCacheKey path (filter (fun kv : string * Js.value => Js.defined kv.2) qs)
  ∧ buildCacheKey path [("a", Js.Undefined); ("b", Js.Num (Js.Fin 2))]
    = buildCacheKey path [("b", Js.Num (Js.Fin 2))]
  ∧ buildCacheKey path [] = path +:+ "?".
Proof.
  intros Hwf. split; [|split].
  - unfold buildCacheKey.
    rewrite (cacheParams_unique qs (filter (fun kv : string * Js.value => Js.defined kv.2) qs));
      [done|done|by apply wf_filter|].
    by rewrite prepareQueryParams_filter.
  - reflexivity.
  - reflexivity.
Qed.

Lemma buildCacheKey_drops_undefined_witness :
  Js.wf [("a", Js.Undefined); ("b", Js.Num (Js.Fin 2)); ("c", Js.Null)]
  ∧ buildCacheKey "/lifelogs" [("a", Js.Undefined); ("b", Js.Num (Js.Fin 2)); ("c", Js.Null)]
    = "/lifelogs?b=2".
Proof.
  assert (Hwf : Js.wf [("a", Js.Undefined); ("b", Js.Num (Js.Fin 2)); ("c", Js.Null)]).
  { unfold Js.wf. simpl. apply (bool_decide_unpack _). vm_compute. exact I. }
  split; [exact Hwf|].
  rewrite (proj1 (buildCacheKey_drops_undefined "/lifelogs" _ Hwf)).
  reflexivity.
Defined.

(** C10: the encoded pairs of the query string sent with the request are
    those of the cache key, in another order: both come from the same
    filtering and the same stringification. *)
Theorem query_string_matches_cache_key (config : LimitlessConfig) (path : string)
    (qs : Js.object) :
  Js.wf qs →
  prepareQueryParams qs ≡ₚ cacheParams qs
  ∧ URLSearchParams.encodedPairs (prepareQueryParams qs)
    ≡ₚ URLSearchParams.encodedPairs (cacheParams qs)
  ∧ requestUrl config path (prepareQueryParams qs)
    = API_BASE_URL config +:+ path +:+ "?"
      +:+ String.concat "&" (URLSearchParams.encodedPairs (prepareQueryParams qs))
  ∧ buildCacheKey path qs
    = path +:+ "?" +:+ String.concat "&" (URLSearchParams.encodedPairs (cacheParams qs)).
Proof.
  intros Hwf. split; [|split; [|split]]; try reflexivity.
  - symmetry. by apply cacheParams_Permutation.
  - unfold URLSearchParams.encodedPairs. by rewrite cacheParams_Permutation.
Qed.

Lemma query_string_matches_cache_key_witness :
  Js.wf [("limit", Js.Num (Js.Fin 10)); ("date", Js.Str "2025-03-01"); ("cursor", Js.Undefined)]
  ∧ URLSearchParams.encodedPairs
      (prepareQueryParams
         [("limit", Js.Num (Js.Fin 10)); ("date", Js.Str "2025-03-01"); ("cursor", Js.Undefined)])
    ≡ₚ URLSearchParams.encodedPairs
         (cacheParams
            [("limit", Js.Num (Js.Fin 10)); ("date", Js.Str "2025-03-01"); ("cursor", Js.Undefined)]).
Proof.
  assert (Hwf : Js.wf [("limit", Js.Num (Js.Fin 10)); ("date", Js.Str "2025-03-01");
                       ("cursor", Js.Undefined)]).
  { unfold Js.wf. simpl. apply (bool_decide_unpack _). vm_compute. exact I. }
  split; [exact Hwf|].
  exact (proj1 (proj2 (query_string_matches_cache_key (defaultConfig "key") "/lifelogs" _ Hwf))).
Defined.

(** ** TTL policy *)

Lemma calculateTTL_firstMatch (config : LimitlessConfig) (path : string) (qs : Js.object) :
  calculateTTL config path qs
  = (CACHE_TTL config * multiplier config (firstMatch path qs))%Qc.
Proof.
  unfold calculateTTL, firstMatch, isMetadata, isListing, isSearch. simpl.
  destruct (includes "/lifelogs/" path && negb (Js.truthy (Js.get "includeMarkdown" qs)));
    [done|].
  destruct (String.eqb path "/lifelogs" && Js.truthy (Js.get "limit" qs)); [done|].
  destruct (Js.truthy (Js.get "query" qs)); [done|].
  simpl. by rewrite Qcmult_1_r.
Qed.

(** C3: [calculateTTL] tests the categories in the order metadata, listing,
    search, default and returns the base TTL times the multiplier of the
    first one that matches, whatever the configuration; with base 300 and
    multipliers 3, 2, 1.5 (and 1 for the default) that is 900, 600, 450 and
    300. *)
Theorem calculateTTL_tiers (config : LimitlessConfig) (path : string) (qs : Js.object) :
  calculateTTL config path qs
  = (CACHE_TTL config * multiplier config (firstMatch path qs))%Qc
  ∧ (CACHE_TTL config = Q2Qc 300 →
     METADATA (CACHE_TTL_MULTIPLIERS config) = Q2Qc 3 →
     LISTINGS (CACHE_TTL_MULTIPLIERS config) = Q2Qc 2 →
     SEARCH (CACHE_TTL_MULTIPLIERS config) = Q2Qc (3 # 2) →
     calculateTTL config path qs
     = match firstMatch path qs with
       | MetadataRequest => Q2Qc 900
       | ListingRequest => Q2Qc 600
       | SearchRequest => Q2Qc 450
       | DefaultRequest => Q2Qc 300
       end).
Proof.
  split; [apply calculateTTL_firstMatch|]. intros Hbase Hm Hl Hs.
  rewrite calculateTTL_firstMatch, Hbase.
  destruct (firstMatch path qs); simpl; rewrite ?Hm, ?Hl, ?Hs;
    apply Qc_is_canon; reflexivity.
Qed.

Lemma calculateTTL_tiers_witness :
  calculateTTL (defaultConfig "key") "/lifelogs/abc" [("query", Js.Str "tea")] = Q2Qc 900
  ∧ calculateTTL (defaultConfig "key") "/lifelogs"
      [("limit", Js.Num (Js.Fin 10)); ("query", Js.Str "tea")] = Q2Qc 600
  ∧ calculateTTL (defaultConfig "key") "/lifelogs" [("query", Js.Str "tea")] = Q2Qc 450
  ∧ calculateTTL (defaultConfig "key") "/lifelogs" [("limit", Js.Num (Js.Fin 0))] = Q2Qc 300.
Proof.
  split; [|split; [|split]].
  - exact (proj2 (calculateTTL_tiers (defaultConfig "key") "/lifelogs/abc"
                    [("query", Js.Str "tea")]) eq_refl eq_refl eq_refl eq_refl).
  - exact (proj2 (calculateTTL_tiers (defaultConfig "key") "/lifelogs"
                    [("limit", Js.Num (Js.Fin 10)); ("query", Js.Str "tea")])
                 eq_refl eq_refl eq_refl eq_refl).
  - exact (proj2 (calculateTTL_tiers (defaultConfig "key") "/lifelogs"
                    [("query", Js.Str "tea")]) eq_refl eq_refl eq_refl eq_refl).
  - exact (proj2 (calculateTTL_tiers (defaultConfig "key") "/lifelogs"
                    [("limit", Js.Num (Js.Fin 0))]) eq_refl eq_refl eq_refl eq_refl).
Defined.

(** ** Status extraction *)

Lemma truthy_get_has (key : string) (ps : Js.object) :
  Js.truthy (Js.get key ps) = true → Js.has key ps = true.
Proof.
  induction ps as [|[k v] ps IH]; simpl; [done|].
  destruct (String.eqb k key); [done|]. exact IH.
Qed.

(** C9, as the code has it: for every value that is not a callable object
    and whose [response] is not one, [getErrorStatusCode] returns the direct
    [statusCode] when it is truthy, otherwise the [statusCode] inside
    [response] when it is truthy, otherwise [undefined]; it is total. *)
Theorem getErrorStatusCode_by_place (error : Js.value) :
  callable error = false →
  callable (Js.optprop error "response") = false →
  getErrorStatusCode error = statusByPlace error.
Proof.
  intros Herr Hresp. unfold getErrorStatusCode, statusByPlace, directStatus, nestedStatus.
  destruct error as [| |b|n|s|ps|src ps]; try reflexivity; [|discriminate Herr].
  simpl in *. unfold isApiError. simpl.
  destruct (Js.truthy (Js.get "statusCode" ps)) eqn:Hsc.
  - by rewrite (truthy_get_has _ _ Hsc).
  - destruct (Js.truthy (Js.optprop (Js.get "response" ps) "statusCode")) eqn:Hn.
    + assert (Js.has "response" ps = true) as ->.
      { apply truthy_get_has. by destruct (Js.get "response" ps). }
      destruct (Js.get "response" ps) as [| |b|n|s|ps'|src ps']; try discriminate.
      simpl. by destruct (Js.has "statusCode" ps).
    + by destruct (negb _).
Qed.

Lemma getErrorStatusCode_by_place_witness :
  getErrorStatusCode
    (Js.Obj [("message", Js.Str "Service Unavailable");
             ("response", Js.Obj [("statusCode", Js.Num (Js.Fin 503))])])
  = Js.Num (Js.Fin 503).
Proof.
  exact (getErrorStatusCode_by_place
           (Js.Obj [("message", Js.Str "Service Unavailable");
                    ("response", Js.Obj [("statusCode", Js.Num (Js.Fin 503))])])
           eq_refl eq_refl).
Defined.

(** C9 as stated fails on a callable object: its direct [statusCode] is
    present and truthy, and the type guard turns it away. *)
Lemma getErrorStatusCode_callable_counterexample :
  directStatus (Js.Fun "function () {}" [("statusCode", Js.Num (Js.Fin 404))])
  = Js.Num (Js.Fin 404)
  ∧ Js.truthy (directStatus (Js.Fun "function () {}" [("statusCode", Js.Num (Js.Fin 404))]))
    = true
  ∧ getErrorStatusCode (Js.Fun "function () {}" [("statusCode", Js.Num (Js.Fin 404))])
    = Js.Undefined.
Proof. split; [|split]; reflexivity. Qed.

(** ** The retry loop *)

Lemma attempts_app (tr1 tr2 : list Event) :
  attempts (tr1 ++ tr2) = (attempts tr1 + attempts tr2)%nat.
Proof. unfold attempts. by rewrite filter_app, length_app. Qed.

Lemma sleeps_app (tr1 tr2 : list Event) :
  sleeps (tr1 ++ tr2) = sleeps tr1 ++ sleeps tr2.
Proof. unfold sleeps. apply omap_app. Qed.

Lemma loopEvents_S (url : string) (c j : nat) :
  loopEvents url c (S j) = attemptEvents url c ++ loopEvents url (S c) j.
Proof. reflexivity. Qed.

Lemma attempts_loopEvents (url : string) (c j : nat) :
  attempts (loopEvents url c j) = j.
Proof.
  revert c. induction j as [|j IH]; intros c; [done|].
  rewrite loopEvents_S, attempts_app, IH. by destruct c.
Qed.

Lemma backoffTrace_loopEvents (url : string) (k : nat) :
  backoffTrace url k = loopEvents url 0 (S k).
Proof.
  unfold backoffTrace. rewrite loopEvents_S. simpl. f_equal.
  unfold loopEvents. generalize 0%nat. induction k as [|k IH]; intros c; [done|].
  simpl. do 2 f_equal. apply IH.
Qed.

(** The sleeps of a trace with [k] retries: 1000 * 2^(n-1) ms before retry
    n, for n = 1..k. *)
Lemma sleeps_backoffTrace (url : string) (k : nat) :
  sleeps (backoffTrace url k)
  = (fun n : nat => 1000 * 2 ^ (Z.of_nat n - 1)) <$> seq 1 k.
Proof.
  unfold backoffTrace. change (sleeps (Request url :: ?l)) with (sleeps l).
  generalize 1%nat. induction k as [|k IH]; intros c; [done|].
  simpl. f_equal. apply IH.
Qed.

Lemma attempts_backoffTrace (url : string) (k : nat) :
  attempts (backoffTrace url k) = S k.
Proof. rewrite backoffTrace_loopEvents. apply attempts_loopEvents. Qed.

Section RetryLoop.

Context (config : LimitlessConfig) (network : Network).

(** One pass through the [try] of the loop: the sleep, if any, then the
    request. *)
Lemma attempt_runs (url : string) (c : nat) (last : option ApiError) (w : World) :
  ∃ w', trace w' = trace w ++ attemptEvents url c
        ∧ cache w' = cache w
        ∧ ((if 0 <? Z.of_nat c
            then sleep (E := ApiError) (2 ^ (Z.of_nat c - 1) * 1000)
            else mret ());;
           response ← request network url;
           mret (Some response, last)) w
          = match network (attempts (trace w)) url with
            | Undici.Resolved r => Some (Normal (Some r, last), w')
            | Undici.Rejected e => Some (Abrupt e, w')
            end.
Proof.
  destruct c as [|c].
  - eexists. split; [|split]; [| |
      unfold mbind, M_bind, mret, M_ret, request; simpl;
      destruct (network (attempts (trace w)) url); reflexivity]; done.
  - eexists. split; [|split]; [| |
      unfold mbind, M_bind, mret, M_ret, request, sleep;
      change (0 <? Z.of_nat (S c)) with true; cbv iota beta;
      cbn [trace cache now];
      rewrite attempts_app, Nat.add_0_r;
      destruct (network (attempts (trace w)) url); reflexivity].
    + cbn [trace attemptEvents]. rewrite <-app_assoc. simpl.
      by rewrite (Z.mul_comm _ 1000).
    + done.
Qed.

(** With enough fuel the loop ends, having made [j] attempts in a row and
    left the cache alone; it makes no more than [API_MAX_RETRIES + 1]. *)
Lemma retryLoop_runs (url : string) (fuel c : nat) (last : option ApiError) (w : World) :
  (Z.to_nat (API_MAX_RETRIES config + 1) - c < fuel)%nat →
  ∃ res w' j,
    retryLoop config network fuel url (Z.of_nat c) last w = Some (res, w')
    ∧ trace w' = trace w ++ loopEvents url c j
    ∧ cache w' = cache w
    ∧ (j = 0%nat ∨ Z.of_nat (c + j) ≤ API_MAX_RETRIES config + 1).
Proof.
  revert c last w. induction fuel as [|fuel IH]; intros c last w Hfuel; [lia|].
  simpl. destruct (Z.of_nat c <=? API_MAX_RETRIES config) eqn:Hc.
  - apply Z.leb_le in Hc.
    destruct (attempt_runs url c last w) as (w1 & Htr & Hcache & Hrun).
    unfold tryCatch at 1. rewrite Hrun.
    destruct (network (attempts (trace w)) url) as [r|e].
    + exists (Normal (Some r, last)), w1, 1%nat.
      repeat split; [by rewrite Htr, loopEvents_S, app_nil_r|done|right; lia].
    + destruct (numTruthy (statusCode e) && numLt (statusCode e) 500).
      { exists (Abrupt e), w1, 1%nat.
        repeat split; [by rewrite Htr, loopEvents_S, app_nil_r|done|right; lia]. }
      destruct (API_MAX_RETRIES config <? Z.of_nat c + 1) eqn:Hmax.
      { exists (Abrupt e), w1, 1%nat.
        repeat split; [by rewrite Htr, loopEvents_S, app_nil_r|done|right; lia]. }
      apply Z.ltb_ge in Hmax.
      replace (Z.of_nat c + 1) with (Z.of_nat (S c)) by lia.
      destruct (IH (S c) (Some e) w1) as (res & w' & j & Hloop & Htr' & Hcache' & Hj);
        [lia|].
      exists res, w', (S j). repeat split.
      * exact Hloop.
      * by rewrite Htr', Htr, loopEvents_S, app_assoc.
      * congruence.
      * right. lia.
  - exists (Normal (None, last)), w, 0%nat.
    repeat split; [by rewrite app_nil_r|by left].
Qed.

End RetryLoop.

(** ** The dispatcher *)

Section Dispatcher.

Context (config : LimitlessConfig) (network : Network).

Lemma get_entries (c : NodeCache.t) (key : string) (t : Z) :
  NodeCache.entries (NodeCache.get c key t).2 = NodeCache.entries c
  ∧ NodeCache.maxKeys (NodeCache.get c key t).2 = NodeCache.maxKeys c.
Proof.
  unfold NodeCache.get. destruct (NodeCache.entries c !! key) as [e|]; [|done].
  by destruct (NodeCache.expired e t).
Qed.

Lemma lookedUp_same (useCache : bool) (key : string) (w : World) :
  trace (lookedUp useCache key w) = trace w
  ∧ now (lookedUp useCache key w) = now w
  ∧ NodeCache.entries (cache (lookedUp useCache key w)) = NodeCache.entries (cache w)
  ∧ NodeCache.maxKeys (cache (lookedUp useCache key w)) = NodeCache.maxKeys (cache w).
Proof.
  unfold lookedUp. destruct useCache; [|done]. simpl.
  by destruct (get_entries (cache w) key (now w)).
Qed.

(** On a hit the cached value is returned at once. *)
Lemma callLimitlessApi_hit (fuel : nat) (path : string) (qs : Js.object) (w : World)
    (v : LifelogResponse) (c' : NodeCache.t) :
  NodeCache.get (cache w) (buildCacheKey path qs) (now w) = (Some v, c') →
  Js.truthy v = true →
  callLimitlessApi config network fuel path qs true w
  = Some (Normal v, {| cache := c'; now := now w; trace := trace w |}).
Proof.
  intros Hget Hv. unfold callLimitlessApi, mbind, M_bind, cacheGet.
  rewrite Hget. simpl. by rewrite Hv.
Qed.

(** When the store gives nothing truthy, or with caching off, the call is
    the [try] block run after the lookup, under the handler. *)
Lemma callLimitlessApi_not_hit (fuel : nat) (path : string) (qs : Js.object)
    (useCache : bool) (w : World) :
  (useCache = true →
   Js.truthy (default Js.Undefined
                (NodeCache.get (cache w) (buildCacheKey path qs) (now w)).1) = false) →
  callLimitlessApi config network fuel path qs useCache w
  = tryCatch
      ('(response, lastError) ←
         retryLoop config network fuel
           (requestUrl config path (prepareQueryParams qs)) 0 None;
       afterLoop config path qs useCache (buildCacheKey path qs) response lastError)
      (fun error => throw (mapError path error))
      (lookedUp useCache (buildCacheKey path qs) w).
Proof.
  intros Hmiss. unfold callLimitlessApi, lookedUp. destruct useCache; [|done].
  specialize (Hmiss eq_refl). unfold mbind at 1, M_bind at 1, cacheGet.
  destruct (NodeCache.get _ _ _) as [r c]. simpl in Hmiss. simpl. by rewrite Hmiss.
Qed.

Lemma callLimitlessApi_miss (fuel : nat) (path : string) (qs : Js.object)
    (useCache : bool) (w : World) :
  (useCache = true → (NodeCache.get (cache w) (buildCacheKey path qs) (now w)).1 = None) →
  callLimitlessApi config network fuel path qs useCache w
  = tryCatch
      ('(response, lastError) ←
         retryLoop config network fuel
           (requestUrl config path (prepareQueryParams qs)) 0 None;
       afterLoop config path qs useCache (buildCacheKey path qs) response lastError)
      (fun error => throw (mapError path error))
      (lookedUp useCache (buildCacheKey path qs) w).
Proof.
  intros Hmiss. apply callLimitlessApi_not_hit. intros Huse. by rewrite (Hmiss Huse).
Qed.

(** What follows the loop adds no event and always ends. *)
Lemma afterLoop_runs (path : string) (qs : Js.object) (useCache : bool)
    (key : string) (response : option Undici.ResponseData)
    (last : option ApiError) (w : World) :
  ∃ res w', afterLoop config path qs useCache key response last w = Some (res, w')
            ∧ trace w' = trace w ∧ now w' = now w.
Proof.
  unfold afterLoop. destruct response as [r|]; [|by eexists _, _].
  destruct (_ || _); [by eexists _, _|].
  unfold mbind, M_bind, json. destruct (Undici.body r) as [e|d]; [by eexists _, _|].
  unfold mret at 1, M_ret at 1. destruct useCache.
  - unfold cacheSet. destruct (NodeCache.set _ _ _ _ _); by eexists _, _.
  - by eexists _, _.
Qed.

(** C6: the delay slept before retry n is 1000 * 2^(n-1) milliseconds, and
    nothing is slept before the first attempt: with enough fuel every call
    ends, and the events it adds are none (cache hit, or no attempt allowed)
    or the first request followed, for n = 1..k, by that sleep and the
    request. *)
Theorem backoff_delays (fuel : nat) (path : string) (qs : Js.object)
    (useCache : bool) (w : World) :
  (enoughFuel config ≤ fuel)%nat →
  ∃ res w',
    callLimitlessApi config network fuel path qs useCache w = Some (res, w')
    ∧ (trace w' = trace w
       ∨ ∃ k : nat,
           Z.of_nat k ≤ API_MAX_RETRIES config
           ∧ trace w'
             = trace w ++ backoffTrace (requestUrl config path (prepareQueryParams qs)) k
           ∧ sleeps (backoffTrace (requestUrl config path (prepareQueryParams qs)) k)
             = (fun n : nat => 1000 * 2 ^ (Z.of_nat n - 1)) <$> seq 1 k).
Proof.
  intros Hfuel. unfold enoughFuel in Hfuel.
  destruct (decide (useCache = true
                    ∧ Js.truthy (default Js.Undefined
                                   (NodeCache.get (cache w) (buildCacheKey path qs)
                                      (now w)).1) = true))
    as [[-> Hhit]|Hmiss].
  - destruct (NodeCache.get _ _ _) as [[v|] c'] eqn:Hget; [|done].
    rewrite (callLimitlessApi_hit _ _ _ _ _ _ Hget Hhit).
    eexists _, _. split; [done|by left].
  - rewrite callLimitlessApi_not_hit.
    2:{ intros ->.
        destruct (Js.truthy _) eqn:E; [|done].
        exfalso. apply Hmiss. by split. }
    set (w0 := lookedUp useCache (buildCacheKey path qs) w).
    set (url := requestUrl config path (prepareQueryParams qs)).
    destruct (lookedUp_same useCache (buildCacheKey path qs) w) as (Htr0 & _).
    destruct (retryLoop_runs config network url fuel 0 None w0)
      as (res & w1 & j & Hloop & Htr1 & _ & Hj); [lia|].
    assert (Hshape : trace w1 = trace w
                     ∨ ∃ k : nat, Z.of_nat k ≤ API_MAX_RETRIES config
                         ∧ trace w1 = trace w ++ backoffTrace url k
                         ∧ sleeps (backoffTrace url k)
                           = (fun n : nat => 1000 * 2 ^ (Z.of_nat n - 1)) <$> seq 1 k).
    { destruct j as [|k].
      - left. rewrite Htr1. fold w0 in Htr0. rewrite Htr0. apply app_nil_r.
      - right. exists k. split; [lia|]. split; [|apply sleeps_backoffTrace].
        rewrite Htr1, backoffTrace_loopEvents. fold w0 in Htr0. by rewrite Htr0. }
    unfold tryCatch, mbind, M_bind. change (Z.of_nat 0) with 0 in Hloop. rewrite Hloop.
    destruct res as [[response last]|e].
    + destruct (afterLoop_runs path qs useCache (buildCacheKey path qs) response last w1)
        as (res' & w2 & Hafter & Htr2 & _).
      rewrite Hafter. destruct res'; eexists _, _; (split; [done|]); by rewrite Htr2.
    + eexists _, _. split; [done|]. done.
Qed.

Lemma callLimitlessApi_loop_abrupt (fuel : nat) (path : string) (qs : Js.object)
    (useCache : bool) (w w' : World) (e : ApiError) :
  (useCache = true → (NodeCache.get (cache w) (buildCacheKey path qs) (now w)).1 = None) →
  retryLoop config network fuel (requestUrl config path (prepareQueryParams qs)) 0 None
    (lookedUp useCache (buildCacheKey path qs) w) = Some (Abrupt e, w') →
  callLimitlessApi config network fuel path qs useCache w
  = Some (Abrupt (mapError path e), w').
Proof.
  intros Hmiss Hloop. rewrite callLimitlessApi_miss by done.
  unfold tryCatch, mbind, M_bind. by rewrite Hloop.
Qed.

Lemma callLimitlessApi_loop_normal (fuel : nat) (path : string) (qs : Js.object)
    (useCache : bool) (w w' : World) (response : option Undici.ResponseData)
    (last : option ApiError) :
  (useCache = true → (NodeCache.get (cache w) (buildCacheKey path qs) (now w)).1 = None) →
  retryLoop config network fuel (requestUrl config path (prepareQueryParams qs)) 0 None
    (lookedUp useCache (buildCacheKey path qs) w) = Some (Normal (response, last), w') →
  callLimitlessApi config network fuel path qs useCache w
  = match afterLoop config path qs useCache (buildCacheKey path qs) response last w' with
    | Some (Normal d, w'') => Some (Normal d, w'')
    | Some (Abrupt e, w'') => Some (Abrupt (mapError path e), w'')
    | None => None
    end.
Proof.
  intros Hmiss Hloop. rewrite callLimitlessApi_miss by done.
  unfold tryCatch, mbind at 1, M_bind at 1. rewrite Hloop.
  by destruct (afterLoop _ _ _ _ _ _ _ _) as [[[d|e] w'']|].
Qed.

Lemma attempts_attemptEvents (url : string) (c : nat) :
  attempts (attemptEvents url c) = 1%nat.
Proof. by destruct c. Qed.

(** After [k] failures the loop retries on, a response ends the loop. *)
Lemma retryLoop_resolves (url : string) (k : nat) :
  ∀ (fuel c : nat) (last : option ApiError) (w : World) (r : Undici.ResponseData),
    (∀ i, (i < k)%nat →
          ∃ e, network (attempts (trace w) + i)%nat url = Undici.Rejected e
               ∧ retryable e = true) →
    network (attempts (trace w) + k)%nat url = Undici.Resolved r →
    Z.of_nat (c + k) ≤ API_MAX_RETRIES config →
    (k < fuel)%nat →
    ∃ last' w',
      retryLoop config network fuel url (Z.of_nat c) last w
      = Some (Normal (Some r, last'), w')
      ∧ trace w' = trace w ++ loopEvents url c (S k)
      ∧ cache w' = cache w.
Proof.
  induction k as [|k IH]; intros fuel c last w r Hfail Hok Hmax Hfuel;
    (destruct fuel as [|fuel]; [lia|]); simpl;
    (destruct (Z.of_nat c <=? API_MAX_RETRIES config) eqn:Hc;
     [|apply Z.leb_gt in Hc; lia]);
    destruct (attempt_runs network url c last w) as (w1 & Htr & Hcache & Hrun);
    unfold tryCatch at 1; rewrite Hrun.
  - rewrite Nat.add_0_r in Hok. rewrite Hok. exists last, w1.
    by rewrite Htr, loopEvents_S, app_nil_r.
  - destruct (Hfail 0%nat) as (e & He & Hretry); [lia|].
    rewrite Nat.add_0_r in He. rewrite He.
    unfold retryable in Hretry. apply negb_true_iff in Hretry. rewrite Hretry.
    destruct (API_MAX_RETRIES config <? Z.of_nat c + 1) eqn:Hlt;
      [apply Z.ltb_lt in Hlt; lia|].
    replace (Z.of_nat c + 1) with (Z.of_nat (S c)) by lia.
    assert (Hatt : attempts (trace w1) = S (attempts (trace w))).
    { rewrite Htr, attempts_app, attempts_attemptEvents. lia. }
    destruct (IH fuel (S c) (Some e) w1 r) as (last' & w' & Hloop & Htr' & Hcache').
    + intros i Hi. rewrite Hatt. destruct (Hfail (S i)) as (e' & He' & Hr'); [lia|].
      exists e'. split; [|done]. rewrite <-He'. f_equal. lia.
    + rewrite Hatt, <-Hok. f_equal. lia.
    + lia.
    + lia.
    + exists last', w'. split; [done|]. split; [|congruence].
      by rewrite Htr', Htr, (loopEvents_S url c (S k)), app_assoc.
Qed.

(** When every attempt fails with an error the loop retries on, the loop
    makes [API_MAX_RETRIES + 1] attempts and raises the last error. *)
Lemma retryLoop_exhausts (url : string) (m : nat) :
  ∀ (fuel c : nat) (last : option ApiError) (w : World),
    (∀ i, (i < S m)%nat →
          ∃ e, network (attempts (trace w) + i)%nat url = Undici.Rejected e
               ∧ retryable e = true) →
    Z.of_nat (c + m) = API_MAX_RETRIES config →
    (m < fuel)%nat →
    ∃ e w',
      retryLoop config network fuel url (Z.of_nat c) last w = Some (Abrupt e, w')
      ∧ network (attempts (trace w) + m)%nat url = Undici.Rejected e
      ∧ trace w' = trace w ++ loopEvents url c (S m)
      ∧ cache w' = cache w.
Proof.
  induction m as [|m IH]; intros fuel c last w Hfail Hmax Hfuel;
    (destruct fuel as [|fuel]; [lia|]); simpl;
    (destruct (Z.of_nat c <=? API_MAX_RETRIES config) eqn:Hc;
     [|apply Z.leb_gt in Hc; lia]);
    destruct (attempt_runs network url c last w) as (w1 & Htr & Hcache & Hrun);
    unfold tryCatch at 1; rewrite Hrun;
    (destruct (Hfail 0%nat) as (e & He & Hretry); [lia|]);
    rewrite Nat.add_0_r in He; rewrite He;
    unfold retryable in Hretry; apply negb_true_iff in Hretry; rewrite Hretry.
  - destruct (API_MAX_RETRIES config <? Z.of_nat c + 1) eqn:Hlt;
      [|apply Z.ltb_ge in Hlt; lia].
    exists e, w1. rewrite Nat.add_0_r.
    by rewrite Htr, loopEvents_S, app_nil_r.
  - destruct (API_MAX_RETRIES config <? Z.of_nat c + 1) eqn:Hlt;
      [apply Z.ltb_lt in Hlt; lia|].
    replace (Z.of_nat c + 1) with (Z.of_nat (S c)) by lia.
    assert (Hatt : attempts (trace w1) = S (attempts (trace w))).
    { rewrite Htr, attempts_app, attempts_attemptEvents. lia. }
    destruct (IH fuel (S c) (Some e) w1) as (e' & w' & Hloop & Hlast & Htr' & Hcache').
    + intros i Hi. rewrite Hatt. destruct (Hfail (S i)) as (e' & He' & Hr'); [lia|].
      exists e'. split; [|done]. rewrite <-He'. f_equal. lia.
    + lia.
    + lia.
    + exists e', w'. split; [done|]. split; [|split; [|congruence]].
      * rewrite <-Hlast, Hatt. f_equal. lia.
      * by rewrite Htr', Htr, (loopEvents_S url c (S m)), app_assoc.
Qed.

End Dispatcher.

(** A fetch that gets a response after [k] failed attempts the loop retries
    on: it made [k + 1] attempts, and what remains is the part of the [try]
    block after the loop. *)
Lemma callLimitlessApi_resolved (config : LimitlessConfig) (network : Network)
    (fuel k : nat) (path : string) (qs : Js.object) (useCache : bool) (w : World)
    (r : Undici.ResponseData) :
  let url := requestUrl config path (prepareQueryParams qs) in
  (useCache = true → (NodeCache.get (cache w) (buildCacheKey path qs) (now w)).1 = None) →
  (∀ i, (i < k)%nat →
        ∃ e, network (attempts (trace w) + i)%nat url = Undici.Rejected e
             ∧ retryable e = true) →
  network (attempts (trace w) + k)%nat url = Undici.Resolved r →
  Z.of_nat k ≤ API_MAX_RETRIES config →
  (k < fuel)%nat →
  ∃ last w1,
    callLimitlessApi config network fuel path qs useCache w
    = match afterLoop config path qs useCache (buildCacheKey path qs) (Some r) last w1 with
      | Some (Normal d, w2) => Some (Normal d, w2)
      | Some (Abrupt e, w2) => Some (Abrupt (mapError path e), w2)
      | None => None
      end
    ∧ trace w1 = trace w ++ backoffTrace url k
    ∧ NodeCache.entries (cache w1) = NodeCache.entries (cache w)
    ∧ NodeCache.maxKeys (cache w1) = NodeCache.maxKeys (cache w).
Proof.
  intros url Hmiss Hfail Hok Hmax Hfuel.
  destruct (lookedUp_same useCache (buildCacheKey path qs) w) as (Htr0 & _ & Hent & Hmk).
  destruct (retryLoop_resolves config network url k fuel 0 None
              (lookedUp useCache (buildCacheKey path qs) w) r)
    as (last & w1 & Hloop & Htr & Hcache); rewrite ?Htr0; try done.
  exists last, w1. split; [|split; [|split]].
  - by apply callLimitlessApi_loop_normal.
  - by rewrite Htr, Htr0, backoffTrace_loopEvents.
  - by rewrite Hcache.
  - by rewrite Hcache.
Qed.

(** C4, what the code does: when every attempt is answered by a response
    with status 503 and [API_MAX_RETRIES] is 3, the client makes one request,
    sleeps never, and raises a plain [Error] that carries no status and is
    not an [McpError]. *)
Theorem continuous_503_single_attempt (config : LimitlessConfig) (network : Network)
    (fuel : nat) (path : string) (qs : Js.object) (useCache : bool) (w : World) :
  API_MAX_RETRIES config = 3 →
  (∀ n url, ∃ r, network n url = Undici.Resolved r ∧ Undici.statusCode r = 503) →
  (useCache = true → (NodeCache.get (cache w) (buildCacheKey path qs) (now w)).1 = None) →
  (1 ≤ fuel)%nat →
  ∃ w',
    callLimitlessApi config network fuel path qs useCache w
    = Some (Abrupt (Rethrown (newError "HTTP error: 503")), w')
    ∧ trace w' = trace w ++ [Request (requestUrl config path (prepareQueryParams qs))]
    ∧ attempts (trace w') = S (attempts (trace w))
    ∧ sleeps (trace w') = sleeps (trace w).
Proof.
  intros Hmax Hnet Hmiss Hfuel.
  destruct (Hnet (attempts (trace w) + 0)%nat
              (requestUrl config path (prepareQueryParams qs))) as (r & Hr & Hstatus).
  destruct (callLimitlessApi_resolved config network fuel 0 path qs useCache w r)
    as (last & w1 & Hcall & Htr & _); [done|intros i Hi; lia|done|lia|lia|].
  exists w1. rewrite Hcall. unfold afterLoop. rewrite Hstatus. simpl.
  split; [done|]. rewrite Htr. split; [done|].
  rewrite attempts_app, sleeps_app. simpl. rewrite app_nil_r. split; [|done].
  unfold attempts at 2. simpl. lia.
Qed.

Lemma continuous_503_single_attempt_witness :
  ∃ w',
    callLimitlessApi (defaultConfig "key") (respond 503) 5 "/lifelogs" [] true
      (freshWorld 500)
    = Some (Abrupt (Rethrown (newError "HTTP error: 503")), w')
    ∧ attempts (trace w') = 1%nat.
Proof.
  destruct (continuous_503_single_attempt (defaultConfig "key") (respond 503) 5
              "/lifelogs" [] true (freshWorld 500)) as (w' & Hcall & _ & Hatt & _).
  - reflexivity.
  - intros n url. eexists. split; reflexivity.
  - reflexivity.
  - lia.
  - exists w'. split; [exact Hcall|exact Hatt].
Defined.

(** The retry path of C4: when the transport rejects every attempt with an
    error of status 503, the client makes four attempts, with sleeps of
    1, 2 and 4 seconds, and raises an [McpError] whose code is [API_ERROR],
    which is not the [ServiceUnavailable] member of the enum. *)
Lemma continuous_503_rejections (config : LimitlessConfig) (network : Network)
    (fuel : nat) (path : string) (qs : Js.object) (useCache : bool) (w : World)
    (e : ApiError) :
  API_MAX_RETRIES config = 3 →
  (∀ n url, network n url = Undici.Rejected e) →
  statusCode e = Some (Js.Fin 503) →
  response e = None →
  (useCache = true → (NodeCache.get (cache w) (buildCacheKey path qs) (now w)).1 = None) →
  (4 ≤ fuel)%nat →
  ∃ w',
    callLimitlessApi config network fuel path qs useCache w
    = Some (Abrupt (Mcp {| mcp_message := "Limitless API service error: 503";
                           mcp_name := "McpError";
                           mcp_code := Js.Str ErrorCode.API_ERROR;
                           mcp_httpStatus := Js.Undefined |}), w')
    ∧ trace w'
      = trace w ++ backoffTrace (requestUrl config path (prepareQueryParams qs)) 3
    ∧ ErrorCode.API_ERROR ≠ ErrorCode.ServiceUnavailable.
Proof.
  intros Hmax Hnet Hstatus Hresp Hmiss Hfuel.
  destruct (lookedUp_same useCache (buildCacheKey path qs) w) as (Htr0 & _).
  destruct (retryLoop_exhausts config network
              (requestUrl config path (prepareQueryParams qs)) 3 fuel 0 None
              (lookedUp useCache (buildCacheKey path qs) w))
    as (e' & w' & Hloop & Hlast & Htr & _).
  - intros i _. exists e. split; [apply Hnet|].
    unfold retryable. by rewrite Hstatus.
  - by rewrite Hmax.
  - lia.
  - rewrite Hnet in Hlast. injection Hlast as <-.
    exists w'. split; [|split].
    + rewrite (callLimitlessApi_loop_abrupt config network fuel path qs useCache w w' e)
        by done.
      unfold mapError. by rewrite Hresp, Hstatus.
    + by rewrite Htr, Htr0, backoffTrace_loopEvents.
    + discriminate.
Qed.

(** C5, what the code does: when the first attempt is answered by a response
    with status 404, the client makes that one request, sleeps never, and
    raises a plain [Error] that carries no status: not an [McpError], and
    not classified as not found. *)
Theorem response_404_not_classified (config : LimitlessConfig) (network : Network)
    (fuel : nat) (path : string) (qs : Js.object) (useCache : bool) (w : World)
    (r : Undici.ResponseData) :
  network (attempts (trace w)) (requestUrl config path (prepareQueryParams qs))
  = Undici.Resolved r →
  Undici.statusCode r = 404 →
  0 ≤ API_MAX_RETRIES config →
  (useCache = true → (NodeCache.get (cache w) (buildCacheKey path qs) (now w)).1 = None) →
  (1 ≤ fuel)%nat →
  ∃ w',
    callLimitlessApi config network fuel path qs useCache w
    = Some (Abrupt (Rethrown (newError "HTTP error: 404")), w')
    ∧ trace w' = trace w ++ [Request (requestUrl config path (prepareQueryParams qs))]
    ∧ attempts (trace w') = S (attempts (trace w))
    ∧ sleeps (trace w') = sleeps (trace w).
Proof.
  intros Hr Hstatus Hmax Hmiss Hfuel.
  destruct (callLimitlessApi_resolved config network fuel 0 path qs useCache w r)
    as (last & w1 & Hcall & Htr & _);
    [done|intros i Hi; lia|by rewrite Nat.add_0_r|done|lia|].
  exists w1. rewrite Hcall. unfold afterLoop. rewrite Hstatus. simpl.
  split; [done|]. rewrite Htr. split; [done|].
  rewrite attempts_app, sleeps_app. simpl. rewrite app_nil_r. split; [|done].
  unfold attempts at 2. simpl. lia.
Qed.

Lemma response_404_not_classified_witness :
  ∃ w',
    callLimitlessApi (defaultConfig "key") (respond 404) 5 "/lifelogs/missing" [] true
      (freshWorld 500)
    = Some (Abrupt (Rethrown (newError "HTTP error: 404")), w')
    ∧ attempts (trace w') = 1%nat.
Proof.
  destruct (response_404_not_classified (defaultConfig "key") (respond 404) 5
              "/lifelogs/missing" [] true (freshWorld 500)
              {| Undici.statusCode := 404; Undici.body := inr sampleBody |})
    as (w' & Hcall & _ & Hatt & _).
  - reflexivity.
  - reflexivity.
  - vm_compute. discriminate.
  - reflexivity.
  - lia.
  - exists w'. split; [exact Hcall|exact Hatt].
Defined.

(** The other path of C5: when the transport rejects the first attempt with
    an error of status 404, the client makes that one request and raises an
    [McpError] with code [NOT_FOUND]. *)
Lemma rejection_404_not_found (config : LimitlessConfig) (network : Network)
    (fuel : nat) (path : string) (qs : Js.object) (useCache : bool) (w : World)
    (e : ApiError) :
  network (attempts (trace w)) (requestUrl config path (prepareQueryParams qs))
  = Undici.Rejected e →
  statusCode e = Some (Js.Fin 404) →
  response e = None →
  0 ≤ API_MAX_RETRIES config →
  (useCache = true → (NodeCache.get (cache w) (buildCacheKey path qs) (now w)).1 = None) →
  (1 ≤ fuel)%nat →
  ∃ w',
    callLimitlessApi config network fuel path qs useCache w
    = Some (Abrupt (Mcp {| mcp_message := "Resource not found: " +:+ path;
                           mcp_name := "McpError";
                           mcp_code := Js.Str ErrorCode.NotFound;
                           mcp_httpStatus := Js.Undefined |}), w')
    ∧ trace w' = trace w ++ [Request (requestUrl config path (prepareQueryParams qs))].
Proof.
  intros He Hstatus Hresp Hmax Hmiss Hfuel.
  destruct (lookedUp_same useCache (buildCacheKey path qs) w) as (Htr0 & _).
  destruct fuel as [|fuel]; [lia|].
  set (w0 := lookedUp useCache (buildCacheKey path qs) w) in *.
  destruct (attempt_runs network (requestUrl config path (prepareQueryParams qs)) 0 None w0)
    as (w1 & Htr & _ & Hrun).
  rewrite Htr0, He in Hrun.
  exists w1. split.
  - rewrite (callLimitlessApi_loop_abrupt config network (S fuel) path qs useCache w w1 e).
    + unfold mapError. by rewrite Hresp, Hstatus.
    + done.
    + fold w0. simpl.
      destruct (0 <=? API_MAX_RETRIES config) eqn:Hle; [|apply Z.leb_gt in Hle; lia].
      unfold tryCatch. simpl in Hrun. rewrite Hrun.
      by rewrite Hstatus.
  - by rewrite Htr, Htr0.
Qed.

(** ** Cache hits and cache writes *)






(** C8, as the code has it: with caching on, when the network call succeeds
    (at once or after retries) while the store is at its maximum key count
    and the key is new, the failure of [set] reaches the handler of the
    client, which finds no status on it and raises it again: the fetch ends
    with the capacity error, and the store keeps its entries. *)
Theorem capacity_error_propagates (config : LimitlessConfig) (network : Network)
    (fuel k : nat) (path : string) (qs : Js.object) (w : World)
    (r : Undici.ResponseData) (d : LifelogResponse) :
  NodeCache.entries (cache w) !! buildCacheKey path qs = None →
  NodeCache.full (cache w) = true →
  (∀ i, (i < k)%nat →
        ∃ e, network (attempts (trace w) + i)%nat
               (requestUrl config path (prepareQueryParams qs)) = Undici.Rejected e
             ∧ retryable e = true) →
  network (attempts (trace w) + k)%nat (requestUrl config path (prepareQueryParams qs))
  = Undici.Resolved r →
  200 ≤ Undici.statusCode r < 300 →
  Undici.body r = inr d →
  Z.of_nat k ≤ API_MAX_RETRIES config →
  (k < fuel)%nat →
  ∃ w',
    callLimitlessApi config network fuel path qs true w
    = Some (Abrupt (Rethrown NodeCache.CapacityExceeded), w')
    ∧ NodeCache.entries (cache w') = NodeCache.entries (cache w)
    ∧ trace w' = trace w ++ backoffTrace (requestUrl config path (prepareQueryParams qs)) k.
Proof.
  intros Hnew Hfull Hfail Hok Hstatus Hbody Hmax Hfuel.
  destruct (callLimitlessApi_resolved config network fuel k path qs true w r)
    as (last & w1 & Hcall & Htr & Hent & Hmk); [|done|done|done|done|].
  { intros _. unfold NodeCache.get. by rewrite Hnew. }
  exists w1. split; [|done].
  rewrite Hcall. unfold afterLoop.
  assert ((Undici.statusCode r =? 0) || (Undici.statusCode r <? 200)
          || (300 <=? Undici.statusCode r) = false) as ->.
  { rewrite !orb_false_iff.
    split; [split|]; [apply Z.eqb_neq|apply Z.ltb_ge|apply Z.leb_gt]; lia. }
  unfold mbind, M_bind, json. rewrite Hbody.
  unfold mret at 1, M_ret at 1, cacheSet, NodeCache.set.
  assert (NodeCache.full (cache w1) = true) as ->.
  { unfold NodeCache.full in *. by rewrite Hent, Hmk. }
  rewrite Hent, Hnew. reflexivity.
Qed.

Lemma capacity_error_propagates_witness :
  ∃ w',
    callLimitlessApi (defaultConfig "key") (respond 200) 5 "/lifelogs/42" [] true fullWorld
    = Some (Abrupt (Rethrown NodeCache.CapacityExceeded), w')
    ∧ NodeCache.entries (cache w') = NodeCache.entries (cache fullWorld).
Proof.
  destruct (capacity_error_propagates (defaultConfig "key") (respond 200) 5 0
              "/lifelogs/42" [] fullWorld
              {| Undici.statusCode := 200; Undici.body := inr sampleBody |} sampleBody)
    as (w' & Hcall & Hent & _).
  - reflexivity.
  - reflexivity.
  - intros i Hi. lia.
  - reflexivity.
  - simpl. lia.
  - reflexivity.
  - vm_compute. discriminate.
  - lia.
  - exists w'. split; [exact Hcall|exact Hent].
Defined.

(** C8 as stated fails: the store is full, the key is new, the upstream
    answers 200 with a body, and the fetch raises the capacity error
    instead of returning that body. *)
Lemma capacity_degradation_counterexample :
  NodeCache.full (cache fullWorld) = true
  ∧ NodeCache.entries (cache fullWorld) !! buildCacheKey "/lifelogs/42" [] = None
  ∧ fst <$> callLimitlessApi (defaultConfig "key") (respond 200) 5 "/lifelogs/42" [] true
              fullWorld
    = Some (Abrupt (Rethrown NodeCache.CapacityExceeded))
  ∧ fst <$> callLimitlessApi (defaultConfig "key") (respond 200) 5 "/lifelogs/42" [] true
              fullWorld
    ≠ Some (Normal sampleBody).
Proof.
  assert (Hrun : fst <$> callLimitlessApi (defaultConfig "key") (respond 200) 5 "/lifelogs/42"
                             [] true fullWorld
                 = Some (Abrupt (Rethrown NodeCache.CapacityExceeded)))
    by (vm_compute; reflexivity).
  split; [reflexivity|]. split; [reflexivity|]. split; [exact Hrun|].
  rewrite Hrun. discriminate.
Qed.

Lemma backoff_delays_witness :
  (enoughFuel (defaultConfig "key") ≤ 5)%nat
  ∧ ∃ res w',
      callLimitlessApi (defaultConfig "key") (reject 503) 5 "/lifelogs" [] true
        (freshWorld 500) = Some (res, w')
      ∧ (trace w' = trace (freshWorld 500)
         ∨ ∃ k : nat,
             Z.of_nat k ≤ API_MAX_RETRIES (defaultConfig "key")
             ∧ trace w'
               = trace (freshWorld 500)
                 ++ backoffTrace
                      (requestUrl (defaultConfig "key") "/lifelogs" (prepareQueryParams [])) k
             ∧ sleeps (backoffTrace
                         (requestUrl (defaultConfig "key") "/lifelogs"
                            (prepareQueryParams [])) k)
               = (fun n : nat => 1000 * 2 ^ (Z.of_nat n - 1)) <$> seq 1 k).
Proof.
  assert (Hfuel : (enoughFuel (defaultConfig "key") ≤ 5)%nat) by (vm_compute; lia).
  split; [exact Hfuel|].
  exact (backoff_delays (defaultConfig "key") (reject 503) 5 "/lifelogs" [] true
           (freshWorld 500) Hfuel).
Defined.

(** ** Runs of the client on the sample data *)

Example run_rejected_503 :
  (fun r => (r.1, sleeps (trace r.2), attempts (trace r.2)))
    <$> callLimitlessApi (defaultConfig "key") (reject 503) 5 "/lifelogs" [] true
          (freshWorld 500)
  = Some (Abrupt (Mcp {| mcp_message := "Limitless API service error: 503";
                         mcp_name := "McpError";
                         mcp_code := Js.Str "api_error";
                         mcp_httpStatus := Js.Undefined |}),
          [1000; 2000; 4000], 4%nat).
Proof. vm_compute. reflexivity. Qed.

Example run_resolved_503 :
  (fun r => (r.1, sleeps (trace r.2), attempts (trace r.2)))
    <$> callLimitlessApi (defaultConfig "key") (respond 503) 5 "/lifelogs" [] true
          (freshWorld 500)
  = Some (Abrupt (Rethrown (newError "HTTP error: 503")), [], 1%nat).
Proof. vm_compute. reflexivity. Qed.

Example run_rejected_404 :
  (fun r => (r.1, sleeps (trace r.2), attempts (trace r.2)))
    <$> callLimitlessApi (defaultConfig "key") (reject 404) 5 "/lifelogs/none" [] true
          (freshWorld 500)
  = Some (Abrupt (Mcp {| mcp_message := "Resource not found: /lifelogs/none";
                         mcp_name := "McpError";
                         mcp_code := Js.Str "not_found";
                         mcp_httpStatus := Js.Undefined |}),
          [], 1%nat).
Proof. vm_compute. reflexivity. Qed.

Example run_fetch_twice :
  (r1 ← callLimitlessApi (defaultConfig "key") (respond 200) 5 "/lifelogs/42" [] true
          (freshWorld 500);
   r2 ← callLimitlessApi (defaultConfig "key") (respond 200) 5 "/lifelogs/42" [] true r1.2;
   Some (r1.1, r2.1, attempts (trace r2.2), NodeCache.hits (cache r2.2)))
  = Some (Normal sampleBody, Normal sampleBody, 1%nat, 1%nat).
Proof. vm_compute. reflexivity. Qed.

Example buildCacheKey_items :
  buildCacheKey "/items" [("id", Js.Str "42")] = "/items?id=42".
Proof. reflexivity. Qed.

Example buildCacheKey_sorted :
  buildCacheKey "/lifelogs"
    [("limit", Js.Num (Js.Fin 10)); ("date", Js.Str "2025-03-01 x"); ("cursor", Js.Undefined)]
  = "/lifelogs?date=2025-03-01+x&limit=10".
Proof. vm_compute. reflexivity. Qed.

Example sort_code_units :
  sort ["～"; "b"; "😀"; "a"; "é"] = ["a"; "b"; "é"; "😀"; "～"]
  ∧ buildCacheKey "/lifelogs" [("～", Js.Str "2"); ("😀", Js.Str "1")]
    = "/lifelogs?%F0%9F%98%80=1&%EF%BD%9E=2".
Proof. split; vm_compute; reflexivity. Qed.

Example prepareQueryParams_order :
  URLSearchParams.toString
    (prepareQueryParams
       [("limit", Js.Num (Js.Fin 10)); ("date", Js.Str "2025-03-01 x"); ("cursor", Js.Undefined)])
  = "limit=10&date=2025-03-01+x".
Proof. vm_compute. reflexivity. Qed.

(** * Further properties *)

(** ** Error utilities *)

Lemma get_setProp (key : string) (v : Js.value) (o : Js.object) :
  Js.get key (setProp key v o) = v.
Proof.
  induction o as [|[k x] o IH]; simpl.
  - by rewrite String.eqb_refl.
  - destruct (String.eqb k key) eqn:Hk; simpl; by rewrite Hk.
Qed.

Lemma has_setProp (key : string) (v : Js.value) (o : Js.object) :
  Js.has key (setProp key v o) = true.
Proof.
  induction o as [|[k x] o IH]; simpl.
  - by rewrite String.eqb_refl.
  - destruct (String.eqb k key) eqn:Hk; simpl; by rewrite Hk.
Qed.

Lemma getErrorMessage_toJs (e : ApiError) :
  getErrorMessage (toJs e) = Js.Str (messageOrUnknown e).
Proof.
  unfold getErrorMessage, isApiError, messageOrUnknown, toJs.
  destruct e as [n [m|] [sc|] [r|]]; simpl; try reflexivity;
    by destruct (String.eqb m "").
Qed.

(** [getErrorMessage] never yields an empty or missing message: its result
    is truthy for every value; on an error object of the client it is the
    error's message, or "Unknown error" when that is empty or absent. *)
Theorem getErrorMessage_truthy (error : Js.value) (e : ApiError) :
  Js.truthy (getErrorMessage error) = true
  ∧ getErrorMessage (toJs e) = Js.Str (messageOrUnknown e).
Proof.
  split; [|apply getErrorMessage_toJs].
  unfold getErrorMessage. destruct (isApiError error); simpl; [|done].
  by destruct (Js.truthy (Js.prop error "message")) eqn:Hm.
Qed.

(** Given a primitive value, or a value that passes [isApiError],
    [enhanceError] returns a value that passes [isApiError].  These are the
    values on which the [String(error)] of the first branch cannot throw: it
    is applied to primitives only. *)
Theorem enhanceError_isApiError (error : Js.value) :
  Js.primitive error = true ∨ isApiError error = true →
  isApiError (enhanceError error) = true.
Proof.
  intros Hdom. unfold enhanceError. destruct (isApiError error) eqn:Hapi; simpl.
  - destruct (_ && _) eqn:Hcond; [|done].
    destruct error as [| |b|n|s|ps|src ps]; try done.
    unfold isApiError. simpl. by rewrite has_setProp.
  - destruct Hdom as [Hprim|?]; [|done]. by destruct error.
Qed.

(** [enhanceError] keeps the status: [getErrorStatusCode] gives the same
    answer before and after, and when that answer is truthy it is the
    direct [statusCode] of the enhanced error. *)
Theorem enhanceError_status (error : Js.value) :
  getErrorStatusCode (enhanceError error) = getErrorStatusCode error
  ∧ (Js.truthy (getErrorStatusCode error) = true →
     Js.prop (enhanceError error) "statusCode" = getErrorStatusCode error).
Proof.
  unfold enhanceError. destruct (isApiError error) eqn:Hapi; simpl.
  - destruct (Js.truthy (Js.prop error "statusCode")) eqn:Hsc; simpl.
    + split; [done|]. intros _. unfold getErrorStatusCode. by rewrite Hapi, Hsc.
    + destruct (Js.truthy (Js.optprop (Js.prop error "response") "statusCode")) eqn:Hn.
      * destruct error as [| |b|n|s|ps|src ps]; try done.
        assert (Hafter : getErrorStatusCode
                           (Js.Obj (setProp "statusCode"
                                      (Js.optprop (Js.prop (Js.Obj ps) "response") "statusCode")
                                      ps))
                         = Js.optprop (Js.prop (Js.Obj ps) "response") "statusCode").
        { unfold getErrorStatusCode at 1, isApiError. simpl.
          rewrite has_setProp, get_setProp. simpl in Hn. by rewrite Hn. }
        rewrite Hafter. unfold getErrorStatusCode. rewrite Hapi, Hsc, Hn. simpl.
        split; [done|]. intros _. apply get_setProp.
      * split; [done|]. unfold getErrorStatusCode. by rewrite Hapi, Hsc, Hn.
  - split; [by unfold getErrorStatusCode; rewrite Hapi|].
    unfold getErrorStatusCode. by rewrite Hapi.
Qed.

(** Enhancing twice is enhancing once. *)
Theorem enhanceError_idempotent (error : Js.value) :
  enhanceError (enhanceError error) = enhanceError error.
Proof.
  assert (Hfix : ∀ v, isApiError v = true →
                      Js.truthy (Js.prop v "statusCode") = true
                      ∨ Js.truthy (Js.optprop (Js.prop v "response") "statusCode") = false →
                      enhanceError v = v).
  { intros v Hv Hcond. unfold enhanceError. rewrite Hv. simpl.
    destruct Hcond as [->| ->]; [done|by rewrite andb_false_r]. }
  unfold enhanceError at 2 3. destruct (isApiError error) eqn:Hapi; simpl.
  - destruct (negb (Js.truthy (Js.prop error "statusCode"))
              && Js.truthy (Js.optprop (Js.prop error "response") "statusCode")) eqn:Hcond.
    + apply andb_true_iff in Hcond as [_ Hn].
      destruct error as [| |b|n|s|ps|src ps]; try done.
      apply Hfix.
      * unfold isApiError. simpl. by rewrite has_setProp.
      * left. simpl. rewrite get_setProp. exact Hn.
    + apply Hfix; [done|].
      apply andb_false_iff in Hcond as [Hsc|Hn]; [left|by right].
      by apply negb_false_iff.
  - by apply Hfix; [|right].
Qed.

(** The error the lifelog tools raise for a body without a lifelog is built
    with the code first: the constructor sees a string first argument, so the
    error's message is the text "not_found", its code is the sentence meant
    as the message and is no member of [ErrorCode]; the handler of the tool
    passes it on as it is. *)
Theorem noLifelogFound_swapped (id : string) :
  mcp_message (noLifelogFound id) = "not_found"
  ∧ mcp_code (noLifelogFound id) = Js.Str ("No lifelog found with ID: " +:+ id)
  ∧ Forall (fun c => mcp_code (noLifelogFound id) ≠ Js.Str c) errorCodes
  ∧ lifelogErrorHandler id (Mcp (noLifelogFound id)) = noLifelogFound id.
Proof.
  split; [done|]. split; [done|]. split; [|done].
  unfold errorCodes. repeat (apply Forall_cons; split; [discriminate|]).
  apply Forall_nil_2.
Qed.

(** ** Cache tags and TTL tiers *)

Lemma firstMatch_if (path : string) (qs : Js.object) :
  firstMatch path qs
  = if isMetadata path qs then MetadataRequest
    else if isListing path qs then ListingRequest
    else if isSearch qs then SearchRequest
    else DefaultRequest.
Proof.
  unfold firstMatch. simpl.
  by destruct (isMetadata path qs), (isListing path qs), (isSearch qs).
Qed.

(** The tags agree with the TTL tier: an entry is tagged [metadata_only]
    exactly when [calculateTTL] picks the metadata multiplier, every entry of
    the listing tier is tagged [lifelog_listings], and an entry without tags
    is in the search or the default tier. *)
Theorem getCacheTags_tiers (path : string) (qs : Js.object) :
  ("metadata_only" ∈ getCacheTags path qs ↔ firstMatch path qs = MetadataRequest)
  ∧ (firstMatch path qs = ListingRequest → "lifelog_listings" ∈ getCacheTags path qs)
  ∧ (getCacheTags path qs = [] →
     firstMatch path qs = SearchRequest ∨ firstMatch path qs = DefaultRequest).
Proof.
  rewrite firstMatch_if. unfold getCacheTags, isMetadata, isListing, isSearch.
  destruct (includes "/lifelogs/" path) eqn:Hinc;
    destruct (String.eqb_spec path "/lifelogs") as [->|Hne];
    try (by vm_compute in Hinc);
    destruct (Js.truthy (Js.get "includeMarkdown" qs));
    destruct (Js.truthy (Js.get "limit" qs));
    destruct (Js.truthy (Js.get "query" qs));
    destruct (Js.truthy (Js.get "date" qs));
    simpl; (split; [|split]); try done; try (by auto);
    first [ by intros _; in_tags
          | by split; [intros Hin; not_in_tags Hin|]
          | by split; [|intros _; in_tags] ].
Qed.

(** The TTL of the two kinds of path the tools request.  For a single
    lifelog, [/lifelogs/<id>], the tier is metadata unless [includeMarkdown]
    is truthy, whatever the other parameters, and is never the listing tier;
    for the collection, [/lifelogs], it is never the metadata tier. *)
Theorem calculateTTL_by_path (config : LimitlessConfig) (id : string) (qs : Js.object) :
  calculateTTL config ("/lifelogs/" +:+ id) qs
  = (if Js.truthy (Js.get "includeMarkdown" qs)
     then if Js.truthy (Js.get "query" qs)
          then CACHE_TTL config * SEARCH (CACHE_TTL_MULTIPLIERS config)
          else CACHE_TTL config
     else CACHE_TTL config * METADATA (CACHE_TTL_MULTIPLIERS config))%Qc
  ∧ calculateTTL config "/lifelogs" qs
    = (if Js.truthy (Js.get "limit" qs)
       then CACHE_TTL config * LISTINGS (CACHE_TTL_MULTIPLIERS config)
       else if Js.truthy (Js.get "query" qs)
            then CACHE_TTL config * SEARCH (CACHE_TTL_MULTIPLIERS config)
            else CACHE_TTL config)%Qc.
Proof.
  split.
  - unfold calculateTTL.
    assert (includes "/lifelogs/" ("/lifelogs/" +:+ id) = true) as -> by (by destruct id).
    assert (String.eqb ("/lifelogs/" +:+ id) "/lifelogs" = false) as -> by (by destruct id).
    simpl. by destruct (Js.truthy (Js.get "includeMarkdown" qs)).
  - reflexivity.
Qed.

(** ** The client: what it leaves alone, what it stores *)

Section ClientEffects.

Context (config : LimitlessConfig) (network : Network).

Lemma retryLoop_cache (url : string) (fuel : nat) :
  ∀ (rc : Z) (last : option ApiError) (w w' : World)
    (res : Completion ApiError (option Undici.ResponseData * option ApiError)),
    retryLoop config network fuel url rc last w = Some (res, w') →
    cache w' = cache w.
Proof.
  induction fuel as [|fuel IH]; intros rc last w w' res; simpl; [done|].
  destruct (rc <=? API_MAX_RETRIES config); [|by intros [= _ <-]].
  unfold tryCatch, mbind, M_bind, mret, M_ret, sleep, request.
  destruct (0 <? rc); simpl;
    destruct (network _ url) as [r|e]; try (by intros [= _ <-]);
    (destruct (numTruthy (statusCode e) && numLt (statusCode e) 500);
     [by intros [= _ <-]|]);
    (destruct (API_MAX_RETRIES config <? rc + 1); [by intros [= _ <-]|]);
    intros Hloop; by apply IH in Hloop.
Qed.

(** What the part of the [try] block after the loop does to the world: a
    raised error leaves it as it was; a returned body has been stored when
    caching is on. *)
Lemma afterLoop_world (path : string) (qs : Js.object) (useCache : bool) (key : string)
    (response : option Undici.ResponseData) (last : option ApiError) (w w' : World)
    (res : Completion ApiError LifelogResponse) :
  afterLoop config path qs useCache key response last w = Some (res, w') →
  match res with
  | Abrupt _ => w' = w
  | Normal d =>
      if useCache
      then ∃ c, NodeCache.set (cache w) key d (calculateTTL config path qs) (now w) = inr c
                ∧ w' = {| cache := c; now := now w; trace := trace w |}
      else w' = w
  end.
Proof.
  unfold afterLoop. destruct response as [r|]; [|by intros [= <- <-]].
  destruct (_ || _); [by intros [= <- <-]|].
  unfold mbind, M_bind, json. destruct (Undici.body r) as [e|d]; [by intros [= <- <-]|].
  unfold mret at 1, M_ret at 1. destruct useCache.
  - unfold cacheSet. destruct (NodeCache.set _ _ _ _ _) as [e|c] eqn:Hset.
    + by intros [= <- <-].
    + intros [= <- <-]. by exists c.
  - by intros [= <- <-].
Qed.

(** Every error the client raises comes out of its handler, and nothing
    has then been written to the store: it is as the lookup left it. *)
Lemma callLimitlessApi_abrupt (fuel : nat) (path : string) (qs : Js.object)
    (useCache : bool) (w w' : World) (t : Thrown) :
  callLimitlessApi config network fuel path qs useCache w = Some (Abrupt t, w') →
  (∃ err, t = mapError path err)
  ∧ cache w' = cache (lookedUp useCache (buildCacheKey path qs) w).
Proof.
  intros Hcall.
  assert (Hmiss : useCache = true →
                  Js.truthy (default Js.Undefined
                               (NodeCache.get (cache w) (buildCacheKey path qs) (now w)).1)
                  = false).
  { intros ->. destruct (NodeCache.get (cache w) (buildCacheKey path qs) (now w))
      as [[v|] c] eqn:Hget; [|done].
    simpl. destruct (Js.truthy v) eqn:Hv; [|done].
    by rewrite (callLimitlessApi_hit config network fuel path qs w v c Hget Hv) in Hcall. }
  rewrite callLimitlessApi_not_hit in Hcall by done.
  unfold tryCatch, mbind at 1, M_bind at 1 in Hcall.
  destruct (retryLoop _ _ _ _ _ _ _) as [[[[response last]|e] wl]|] eqn:Hloop; [| |done].
  - apply retryLoop_cache in Hloop.
    destruct (afterLoop _ _ _ _ _ _ _ _) as [[[d|e] wa]|] eqn:Hafter; [done| |done].
    apply afterLoop_world in Hafter. subst wa. injection Hcall as <- <-.
    split; [by eexists|]. by rewrite Hloop.
  - apply retryLoop_cache in Hloop. injection Hcall as <- <-.
    split; [by eexists|]. by rewrite Hloop.
Qed.

(** With caching off the client neither reads nor writes the store: however
    the call ends, the store is the one it started with. *)
Theorem no_cache_store_untouched (fuel : nat) (path : string) (qs : Js.object)
    (w w' : World) (res : Completion Thrown LifelogResponse) :
  callLimitlessApi config network fuel path qs false w = Some (res, w') →
  cache w' = cache w.
Proof.
  rewrite callLimitlessApi_miss by done.
  unfold tryCatch, mbind at 1, M_bind at 1, lookedUp.
  destruct (retryLoop _ _ _ _ _ _ _) as [[[[response last]|e] wl]|] eqn:Hloop; [| |done].
  - apply retryLoop_cache in Hloop.
    destruct (afterLoop _ _ _ _ _ _ _ _) as [[[d|e] wa]|] eqn:Hafter; [| |done];
      apply afterLoop_world in Hafter; subst wa; by intros [= <- <-].
  - apply retryLoop_cache in Hloop. by intros [= <- <-].
Qed.

(** A fetch that ends with an error has written nothing to the store: the
    store it leaves is the one its opening [cache.get] left (the store it
    started with, when caching is off), whatever that read does to the entry
    it looks up. *)
Theorem failed_fetch_writes_nothing (fuel : nat) (path : string) (qs : Js.object)
    (useCache : bool) (w w' : World) (t : Thrown) :
  callLimitlessApi config network fuel path qs useCache w = Some (Abrupt t, w') →
  cache w'
  = if useCache
    then (NodeCache.get (cache w) (buildCacheKey path qs) (now w)).2
    else cache w.
Proof.
  intros Hcall. apply callLimitlessApi_abrupt in Hcall as [_ ->].
  unfold lookedUp. by destruct useCache.
Qed.

Lemma mapError_codes (path : string) (err : ApiError) (m : McpError) :
  mapError path err = Mcp m →
  mcp_name m = "McpError" ∧ mcp_code m ∈ clientCodes ∧ mcp_httpStatus m = Js.Undefined.
Proof.
  unfold mapError, clientCodes.
  destruct (numTruthy _); [|done].
  destruct (numIs _ 404); [intros [= <-]; split; [done|split; [in_tags|done]]|].
  destruct (_ || _); [intros [= <-]; split; [done|split; [in_tags|done]]|].
  destruct (numGe _ 500); [intros [= <-]; split; [done|split; [in_tags|done]]|done].
Qed.

(** The [McpError]s of the client carry one of three codes, [NOT_FOUND],
    [UNAUTHORIZED] or [API_ERROR]: it never raises one coded as a timeout,
    a rate limit, an invalid request, an internal error or
    [ServiceUnavailable]. *)
Theorem client_error_codes (fuel : nat) (path : string) (qs : Js.object)
    (useCache : bool) (w w' : World) (m : McpError) :
  callLimitlessApi config network fuel path qs useCache w = Some (Abrupt (Mcp m), w') →
  mcp_name m = "McpError"
  ∧ mcp_code m ∈ clientCodes
  ∧ mcp_code m ≠ Js.Str ErrorCode.ServiceUnavailable
  ∧ mcp_code m ≠ Js.Str ErrorCode.TIMEOUT
  ∧ mcp_code m ≠ Js.Str ErrorCode.RATE_LIMITED.
Proof.
  intros Hcall. apply callLimitlessApi_abrupt in Hcall as [[err Herr] _].
  symmetry in Herr. apply mapError_codes in Herr as (Hname & Hcode & _).
  split; [done|]. split; [done|].
  unfold clientCodes in Hcode.
  repeat (apply elem_of_cons in Hcode as [->|Hcode]; [by repeat split|]).
  by apply elem_of_nil in Hcode.
Qed.

End ClientEffects.

(** ** The client: outcomes of the retry loop *)

Section ClientOutcomes.

Context (config : LimitlessConfig) (network : Network).

(** When every attempt is rejected with an error the loop retries on, the
    client raises what its handler makes of the last of them. *)
Lemma callLimitlessApi_exhausted (fuel m : nat) (path : string) (qs : Js.object)
    (useCache : bool) (w : World) :
  let url := requestUrl config path (prepareQueryParams qs) in
  (useCache = true → (NodeCache.get (cache w) (buildCacheKey path qs) (now w)).1 = None) →
  (∀ i, (i < S m)%nat →
        ∃ e, network (attempts (trace w) + i)%nat url = Undici.Rejected e
             ∧ retryable e = true) →
  Z.of_nat m = API_MAX_RETRIES config →
  (m < fuel)%nat →
  ∃ e w',
    callLimitlessApi config network fuel path qs useCache w
    = Some (Abrupt (mapError path e), w')
    ∧ network (attempts (trace w) + m)%nat url = Undici.Rejected e
    ∧ trace w' = trace w ++ backoffTrace url m.
Proof.
  intros url Hmiss Hfail Hmax Hfuel.
  destruct (lookedUp_same useCache (buildCacheKey path qs) w) as (Htr0 & _).
  destruct (retryLoop_exhausts config network url m fuel 0 None
              (lookedUp useCache (buildCacheKey path qs) w))
    as (e & w' & Hloop & Hlast & Htr & _); rewrite ?Htr0; try done.
  exists e, w'. split; [|split].
  - by apply callLimitlessApi_loop_abrupt.
  - by rewrite Htr0 in Hlast.
  - by rewrite Htr, Htr0, backoffTrace_loopEvents.
Qed.

(** A persistent failure surfaces only after the whole retry budget, and
    the error raised is made from the last error observed, not the first:
    [API_MAX_RETRIES + 1] requests, the sleeps of the backoff between them,
    then the handler applied to the error of the last attempt. *)
Theorem last_error_is_raised (fuel m : nat) (path : string) (qs : Js.object)
    (useCache : bool) (w : World) :
  (useCache = true → (NodeCache.get (cache w) (buildCacheKey path qs) (now w)).1 = None) →
  (∀ i, (i < S m)%nat →
        ∃ e, network (attempts (trace w) + i)%nat
               (requestUrl config path (prepareQueryParams qs)) = Undici.Rejected e
             ∧ retryable e = true) →
  Z.of_nat m = API_MAX_RETRIES config →
  (m < fuel)%nat →
  ∃ e w',
    callLimitlessApi config network fuel path qs useCache w
    = Some (Abrupt (mapError path e), w')
    ∧ network (attempts (trace w) + m)%nat (requestUrl config path (prepareQueryParams qs))
      = Undici.Rejected e
    ∧ attempts (trace w') = (attempts (trace w) + S m)%nat
    ∧ sleeps (trace w')
      = sleeps (trace w) ++ ((fun n : nat => 1000 * 2 ^ (Z.of_nat n - 1)) <$> seq 1 m).
Proof.
  intros Hmiss Hfail Hmax Hfuel.
  destruct (callLimitlessApi_exhausted fuel m path qs useCache w Hmiss Hfail Hmax Hfuel)
    as (e & w' & Hcall & Hlast & Htr).
  exists e, w'. split; [done|]. split; [done|].
  by rewrite Htr, attempts_app, sleeps_app, attempts_backoffTrace, sleeps_backoffTrace.
Qed.

(** A server error (status 500 or more on the rejection) is retried until
    the budget is spent and then raised as an [McpError] with code
    [API_ERROR] that names the status. *)
Theorem server_error_retried (fuel : nat) (path : string) (qs : Js.object)
    (useCache : bool) (w : World) (e : ApiError) (s : Z) :
  (∀ n url, network n url = Undici.Rejected e) →
  statusCode e = Some (Js.Fin s) →
  response e = None →
  500 ≤ s →
  0 ≤ API_MAX_RETRIES config →
  (useCache = true → (NodeCache.get (cache w) (buildCacheKey path qs) (now w)).1 = None) →
  (Z.to_nat (API_MAX_RETRIES config) < fuel)%nat →
  ∃ w',
    callLimitlessApi config network fuel path qs useCache w
    = Some (Abrupt (Mcp {| mcp_message := "Limitless API service error: " +:+ pretty s;
                           mcp_name := "McpError";
                           mcp_code := Js.Str ErrorCode.API_ERROR;
                           mcp_httpStatus := Js.Undefined |}), w')
    ∧ trace w'
      = trace w ++ backoffTrace (requestUrl config path (prepareQueryParams qs))
                                (Z.to_nat (API_MAX_RETRIES config)).
Proof.
  intros Hnet Hstatus Hresp Hs Hmax Hmiss Hfuel.
  assert (Hretry : retryable e = true).
  { unfold retryable. rewrite Hstatus. simpl.
    destruct (s <? 500) eqn:Hlt; [apply Z.ltb_lt in Hlt; lia|]. by rewrite andb_false_r. }
  destruct (callLimitlessApi_exhausted fuel (Z.to_nat (API_MAX_RETRIES config)) path qs
              useCache w) as (e' & w' & Hcall & Hlast & Htr); try done; [by eauto|lia|].
  rewrite Hnet in Hlast. injection Hlast as <-.
  exists w'. split; [|done]. rewrite Hcall. unfold mapError. rewrite Hresp, Hstatus. simpl.
  assert ((s =? 0) = false) as -> by lia. assert ((s =? 404) = false) as -> by lia.
  assert ((s =? 401) = false) as -> by lia. assert ((s =? 403) = false) as -> by lia.
  assert ((500 <=? s) = true) as -> by lia. done.
Qed.

(** An error without any status (a refused or timed-out connection) is
    retried until the budget is spent, and the last one is then raised as it
    is: the client gives it no code. *)
Theorem statusless_error_rethrown (fuel m : nat) (path : string) (qs : Js.object)
    (useCache : bool) (w : World) (errs : nat → ApiError) :
  (∀ i, (i ≤ m)%nat →
        network (attempts (trace w) + i)%nat
          (requestUrl config path (prepareQueryParams qs)) = Undici.Rejected (errs i)
        ∧ statusCode (errs i) = None ∧ response (errs i) = None) →
  Z.of_nat m = API_MAX_RETRIES config →
  (useCache = true → (NodeCache.get (cache w) (buildCacheKey path qs) (now w)).1 = None) →
  (m < fuel)%nat →
  ∃ w',
    callLimitlessApi config network fuel path qs useCache w
    = Some (Abrupt (Rethrown (errs m)), w')
    ∧ attempts (trace w') = (attempts (trace w) + S m)%nat.
Proof.
  intros Hnet Hmax Hmiss Hfuel.
  destruct (callLimitlessApi_exhausted fuel m path qs useCache w)
    as (e' & w' & Hcall & Hlast & Htr); try done.
  { intros i Hi. destruct (Hnet i) as (Hi1 & Hi2 & _); [lia|].
    exists (errs i). split; [done|]. unfold retryable. by rewrite Hi2. }
  destruct (Hnet m) as (Hm1 & Hm2 & Hm3); [lia|].
  rewrite Hm1 in Hlast. injection Hlast as <-.
  exists w'. split.
  - rewrite Hcall. unfold mapError. by rewrite Hm3, Hm2.
  - by rewrite Htr, attempts_app, attempts_backoffTrace.
Qed.

(** A 404 that the error carries only inside its [response] is not seen by
    the loop, which looks at the error's own status: the request is retried
    until the budget is spent, and only then reported as not found. *)
Theorem wrapped_404_retried (fuel : nat) (path : string) (qs : Js.object)
    (useCache : bool) (w : World) (e : ApiError) :
  (∀ n url, network n url = Undici.Rejected e) →
  statusCode e = None →
  response e = Some {| wrapped_statusCode := Some (Js.Fin 404) |} →
  0 ≤ API_MAX_RETRIES config →
  (useCache = true → (NodeCache.get (cache w) (buildCacheKey path qs) (now w)).1 = None) →
  (Z.to_nat (API_MAX_RETRIES config) < fuel)%nat →
  ∃ w',
    callLimitlessApi config network fuel path qs useCache w
    = Some (Abrupt (Mcp {| mcp_message := "Resource not found: " +:+ path;
                           mcp_name := "McpError";
                           mcp_code := Js.Str ErrorCode.NOT_FOUND;
                           mcp_httpStatus := Js.Undefined |}), w')
    ∧ attempts (trace w')
      = (attempts (trace w) + S (Z.to_nat (API_MAX_RETRIES config)))%nat.
Proof.
  intros Hnet Hstatus Hresp Hmax Hmiss Hfuel.
  destruct (callLimitlessApi_exhausted fuel (Z.to_nat (API_MAX_RETRIES config)) path qs
              useCache w) as (e' & w' & Hcall & Hlast & Htr); try done.
  { intros i _. exists e. split; [done|]. unfold retryable. by rewrite Hstatus. }
  { lia. }
  rewrite Hnet in Hlast. injection Hlast as <-.
  exists w'. split.
  - rewrite Hcall. unfold mapError. by rewrite Hresp.
  - by rewrite Htr, attempts_app, attempts_backoffTrace.
Qed.

(** A rejection whose own status is truthy and below 500 ends the call at
    once: one request, no sleep, and the handler applied to that error. *)
Theorem client_error_not_retried (fuel : nat) (path : string) (qs : Js.object)
    (useCache : bool) (w : World) (e : ApiError) :
  network (attempts (trace w)) (requestUrl config path (prepareQueryParams qs))
  = Undici.Rejected e →
  (numTruthy (statusCode e) && numLt (statusCode e) 500) = true →
  0 ≤ API_MAX_RETRIES config →
  (useCache = true → (NodeCache.get (cache w) (buildCacheKey path qs) (now w)).1 = None) →
  (1 ≤ fuel)%nat →
  ∃ w',
    callLimitlessApi config network fuel path qs useCache w
    = Some (Abrupt (mapError path e), w')
    ∧ trace w' = trace w ++ [Request (requestUrl config path (prepareQueryParams qs))].
Proof.
  intros He Hclient Hmax Hmiss Hfuel.
  destruct (lookedUp_same useCache (buildCacheKey path qs) w) as (Htr0 & _).
  destruct fuel as [|fuel]; [lia|].
  set (w0 := lookedUp useCache (buildCacheKey path qs) w) in *.
  destruct (attempt_runs network (requestUrl config path (prepareQueryParams qs)) 0 None w0)
    as (w1 & Htr & _ & Hrun).
  rewrite Htr0, He in Hrun.
  exists w1. split.
  - apply callLimitlessApi_loop_abrupt; [done|]. fold w0. simpl.
    destruct (0 <=? API_MAX_RETRIES config) eqn:Hle; [|apply Z.leb_gt in Hle; lia].
    unfold tryCatch. simpl in Hrun. rewrite Hrun. by rewrite Hclient.
  - by rewrite Htr, Htr0.
Qed.

(** With a negative [API_MAX_RETRIES] the loop is never entered: on a miss
    the client sends nothing and raises "API call failed with no response". *)
Theorem negative_retries_no_request (fuel : nat) (path : string) (qs : Js.object)
    (useCache : bool) (w : World) :
  API_MAX_RETRIES config < 0 →
  (useCache = true → (NodeCache.get (cache w) (buildCacheKey path qs) (now w)).1 = None) →
  (1 ≤ fuel)%nat →
  ∃ w',
    callLimitlessApi config network fuel path qs useCache w
    = Some (Abrupt (Rethrown (newError ("API call failed with no response: " +:+ path))), w')
    ∧ trace w' = trace w.
Proof.
  intros Hmax Hmiss Hfuel. destruct fuel as [|fuel]; [lia|].
  destruct (lookedUp_same useCache (buildCacheKey path qs) w) as (Htr0 & _).
  exists (lookedUp useCache (buildCacheKey path qs) w). split; [|done].
  rewrite callLimitlessApi_miss by done. simpl.
  destruct (0 <=? API_MAX_RETRIES config) eqn:Hle; [apply Z.leb_le in Hle; lia|].
  reflexivity.
Qed.

(** A fetch that misses the cache and gets a 2xx response with a body, at
    once or after retries, returns the body and stores it under the cache
    key, with the lifetime [calculateTTL] gives, provided the store has room
    or already holds the key. *)
Theorem successful_fetch_is_stored (fuel k : nat) (path : string) (qs : Js.object)
    (w : World) (r : Undici.ResponseData) (d : LifelogResponse) :
  (NodeCache.get (cache w) (buildCacheKey path qs) (now w)).1 = None →
  NodeCache.full (cache w) = false
  ∨ is_Some (NodeCache.entries (cache w) !! buildCacheKey path qs) →
  (∀ i, (i < k)%nat →
        ∃ e, network (attempts (trace w) + i)%nat
               (requestUrl config path (prepareQueryParams qs)) = Undici.Rejected e
             ∧ retryable e = true) →
  network (attempts (trace w) + k)%nat (requestUrl config path (prepareQueryParams qs))
  = Undici.Resolved r →
  200 ≤ Undici.statusCode r < 300 →
  Undici.body r = inr d →
  Z.of_nat k ≤ API_MAX_RETRIES config →
  (k < fuel)%nat →
  ∃ w',
    callLimitlessApi config network fuel path qs true w = Some (Normal d, w')
    ∧ NodeCache.entries (cache w')
      = <[buildCacheKey path qs :=
            {| NodeCache.value := d;
               NodeCache.expiresAt :=
                 (Q2Qc (inject_Z (now w')) + calculateTTL config path qs * Q2Qc 1000)%Qc;
               NodeCache.insertedAt := now w' |}]> (NodeCache.entries (cache w))
    ∧ trace w' = trace w ++ backoffTrace (requestUrl config path (prepareQueryParams qs)) k.
Proof.
  intros Hmiss Hroom Hfail Hok Hstatus Hbody Hmax Hfuel.
  destruct (callLimitlessApi_resolved config network fuel k path qs true w r)
    as (last & w1 & Hcall & Htr & Hent & Hmk); [done..|].
  rewrite Hcall. unfold afterLoop.
  assert ((Undici.statusCode r =? 0) || (Undici.statusCode r <? 200)
          || (300 <=? Undici.statusCode r) = false) as ->.
  { rewrite !orb_false_iff.
    split; [split|]; [apply Z.eqb_neq|apply Z.ltb_ge|apply Z.leb_gt]; lia. }
  unfold mbind, M_bind, json. rewrite Hbody.
  unfold mret at 1, M_ret at 1, cacheSet, NodeCache.set.
  assert (NodeCache.full (cache w1)
          && bool_decide (NodeCache.entries (cache w1) !! buildCacheKey path qs = None)
          = false) as ->.
  { unfold NodeCache.full in *. rewrite Hent, Hmk.
    destruct Hroom as [->|[x Hx]]; [done|].
    rewrite Hx. by rewrite andb_false_r. }
  eexists. split; [reflexivity|]. simpl. by rewrite Hent.
Qed.

End ClientOutcomes.

(** ** The handler of the lifelog tools, after the client *)

Lemma getErrorStatusCode_toJs (e : ApiError) :
  getErrorStatusCode (toJs e) = from_option Js.Num Js.Undefined (statusOf e).
Proof.
  unfold getErrorStatusCode, isApiError, statusOf, toJs, wrapperToJs.
  destruct e as [n [m|] [[z|]|] [[[[z'|]|]]|]]; simpl; try reflexivity;
    try (by destruct (z =? 0)); try (by destruct (z' =? 0));
    by destruct (z =? 0), (z' =? 0).
Qed.

(** An error the client passed on unmapped has no status the tool handler
    maps either: the handler falls back to its generic error. *)
Lemma lifelogErrorHandler_rethrown (id path : string) (e e' : ApiError) :
  mapError path e = Rethrown e' →
  lifelogErrorHandler id (Rethrown e') = genericLifelogError id e'.
Proof.
  unfold mapError.
  set (err := match response e with
              | Some r => {| name := name e; message := message e;
                             statusCode := wrapped_statusCode r; response := response e |}
              | None => e
              end).
  assert (Hwrap : numTruthy (statusCode err) = false → statusOf err = None).
  { intros Hsc. unfold statusOf. rewrite Hsc. subst err.
    destruct (response e) as [r|] eqn:Hr; simpl in *; [|by rewrite Hr].
    by rewrite Hsc. }
  intros Hmap.
  assert (He' : e' = err ∧ (numTruthy (statusCode err) = false
                            ∨ (numTruthy (statusCode err) = true
                               ∧ numIs (statusCode err) 404 = false
                               ∧ (numIs (statusCode err) 401 || numIs (statusCode err) 403)
                                 = false
                               ∧ numGe (statusCode err) 500 = false))).
  { destruct (numTruthy (statusCode err)) eqn:Hsc;
      [|injection Hmap as <-; split; [done|by left]].
    destruct (numIs (statusCode err) 404) eqn:H404; [done|].
    destruct (numIs (statusCode err) 401 || numIs (statusCode err) 403) eqn:H40x; [done|].
    destruct (numGe (statusCode err) 500) eqn:H500; [done|].
    injection Hmap as <-. split; [done|]. right. by repeat split. }
  destruct He' as [-> Hcases].
  unfold lifelogErrorHandler, genericLifelogError.
  rewrite getErrorStatusCode_toJs, getErrorMessage_toJs. simpl.
  destruct Hcases as [Hsc|(Hsc & H404 & H40x & H500)].
  - by rewrite (Hwrap Hsc).
  - unfold statusOf. rewrite Hsc.
    destruct (statusCode err) as [[z|]|] eqn:Hz; try done. simpl in *.
    by rewrite Hsc, H404, H40x, H500.
Qed.

(** Whatever [callLimitlessApi] raises, the handler of the lifelog tools
    either passes on the client's own [McpError] or falls back to its
    generic internal error: its branches for 404, 401/403 and 5xx are never
    taken, and the error it raises is never coded [ServiceUnavailable]. *)
Theorem tool_handler_after_client (config : LimitlessConfig) (network : Network)
    (fuel : nat) (path id : string) (qs : Js.object) (useCache : bool) (w w' : World)
    (t : Thrown) :
  callLimitlessApi config network fuel path qs useCache w = Some (Abrupt t, w') →
  lifelogErrorHandler id t
  = match t with
    | Mcp m => m
    | Rethrown e => genericLifelogError id e
    end
  ∧ mcp_code (lifelogErrorHandler id t) ≠ Js.Str ErrorCode.ServiceUnavailable.
Proof.
  intros Hcall. apply callLimitlessApi_abrupt in Hcall as [[err Herr] _].
  symmetry in Herr. destruct t as [e|m].
  - rewrite (lifelogErrorHandler_rethrown id path err e Herr). by split.
  - split; [done|]. simpl.
    apply mapError_codes in Herr as (_ & Hcode & _). unfold clientCodes in Hcode.
    repeat (apply elem_of_cons in Hcode as [->|Hcode]; [done|]).
    by apply elem_of_nil in Hcode.
Qed.

(** A response outside 200-299, whatever its status (a redirect, a 404, a
    503), ends the loop at the first attempt: one request, no sleep, and a
    plain error "HTTP error: <status>" without a status field, which the
    handler of the lifelog tools turns into its generic internal error. *)
Theorem non_2xx_response_plain_error (config : LimitlessConfig) (network : Network)
    (fuel : nat) (path id : string) (qs : Js.object) (useCache : bool) (w : World)
    (r : Undici.ResponseData) :
  network (attempts (trace w)) (requestUrl config path (prepareQueryParams qs))
  = Undici.Resolved r →
  Undici.statusCode r < 200 ∨ 300 ≤ Undici.statusCode r →
  0 ≤ API_MAX_RETRIES config →
  (useCache = true → (NodeCache.get (cache w) (buildCacheKey path qs) (now w)).1 = None) →
  (1 ≤ fuel)%nat →
  ∃ w',
    callLimitlessApi config network fuel path qs useCache w
    = Some (Abrupt (Rethrown (newError ("HTTP error: " +:+ pretty (Undici.statusCode r)))),
            w')
    ∧ trace w' = trace w ++ [Request (requestUrl config path (prepareQueryParams qs))]
    ∧ lifelogErrorHandler id
        (Rethrown (newError ("HTTP error: " +:+ pretty (Undici.statusCode r))))
      = newMcpError
          (Js.Str ("Error retrieving lifelog " +:+ id +:+ ": HTTP error: "
                   +:+ pretty (Undici.statusCode r)))
          (Js.Str ErrorCode.Internal) Js.Undefined.
Proof.
  intros Hr Hstatus Hmax Hmiss Hfuel.
  destruct (callLimitlessApi_resolved config network fuel 0 path qs useCache w r)
    as (last & w1 & Hcall & Htr & _);
    [done|intros i Hi; lia|by rewrite Nat.add_0_r|done|lia|].
  exists w1. split; [|split; [done|]].
  - rewrite Hcall. unfold afterLoop.
    assert ((Undici.statusCode r =? 0) || (Undici.statusCode r <? 200)
            || (300 <=? Undici.statusCode r) = true) as ->; [|done].
    destruct Hstatus as [Hlt|Hge].
    + apply Z.ltb_lt in Hlt. rewrite Hlt. by rewrite orb_true_r.
    + apply Z.leb_le in Hge. rewrite Hge. by rewrite orb_true_r.
  - by rewrite (lifelogErrorHandler_rethrown id path
                  (newError ("HTTP error: " +:+ pretty (Undici.statusCode r))) _ eq_refl).
Qed.

(** ** The cache key and the URL *)

(** When the parameter names of a request are already in the ascending
    order of [Array.prototype.sort()], that of their UTF-16 code units, the
    URL requested is the base URL followed by the cache key. *)
Theorem sorted_params_url_is_key (config : LimitlessConfig) (path : string)
    (qs : Js.object) :
  Js.wf qs →
  Sorted codeUnitLe (Js.keys qs) →
  requestUrl config path (prepareQueryParams qs)
  = API_BASE_URL config +:+ buildCacheKey path qs.
Proof.
  intros Hwf Hsorted. unfold requestUrl, buildCacheKey.
  assert (cacheParams qs = prepareQueryParams qs) as ->; [|done].
  rewrite cacheParams_omap, prepareQueryParams_omap.
  assert (sort (Js.keys qs) = Js.keys qs) as ->.
  { apply (Sorted_unique codeUnitLe); [|done|apply merge_sort_Permutation].
    apply Sorted_merge_sort; apply _. }
  apply omap_keys_get. intros [k v] Hin. by apply get_elem_of.
Qed.

(** ** The cache key tells requests apart *)

Lemma string_app_cons (a : ascii) (s t : string) :
  String a s +:+ t = String a (s +:+ t).
Proof. reflexivity. Qed.

Lemma string_app_nil_l (t : string) : "" +:+ t = t.
Proof. reflexivity. Qed.

Lemma string_app_nil_r (s : string) : s +:+ "" = s.
Proof.
  induction s as [|a s IH]; [done|]. rewrite string_app_cons. by f_equal.
Qed.

Lemma string_app_assoc (s1 s2 s3 : string) :
  (s1 +:+ s2) +:+ s3 = s1 +:+ (s2 +:+ s3).
Proof.
  induction s1 as [|a s1 IH]; [done|]. rewrite !string_app_cons. by f_equal.
Qed.

Lemma occurs_app (c : ascii) (s1 s2 : string) :
  occurs c (s1 +:+ s2) = occurs c s1 || occurs c s2.
Proof.
  induction s1 as [|a s1 IH]; [done|].
  rewrite string_app_cons. simpl. by rewrite IH, orb_assoc.
Qed.

(** Two strings free of a character, each followed by that character, are
    cut at the same place. *)
Lemma split_at (c : ascii) (s1 s2 r1 r2 : string) :
  occurs c s1 = false → occurs c s2 = false →
  s1 +:+ String c r1 = s2 +:+ String c r2 →
  s1 = s2 ∧ r1 = r2.
Proof.
  revert s2. induction s1 as [|a s1 IH]; intros [|b s2]; simpl; intros H1 H2 Heq;
    rewrite ?string_app_cons, ?string_app_nil_l in Heq.
  - by injection Heq as <-.
  - injection Heq as <- _. by rewrite Ascii.eqb_refl in H2.
  - injection Heq as -> _. by rewrite Ascii.eqb_refl in H1.
  - injection Heq as <- Heq.
    apply orb_false_iff in H1 as [_ H1]. apply orb_false_iff in H2 as [_ H2].
    destruct (IH s2 H1 H2 Heq) as [-> ->]. done.
Qed.

Lemma hexdigit_inj (x y : N) :
  (x < 16)%N → (y < 16)%N →
  URLSearchParams.hexdigit x = URLSearchParams.hexdigit y → x = y.
Proof.
  intros Hx Hy Heq.
  assert (Hall : Forall (fun i : nat =>
                   Forall (fun j : nat =>
                     URLSearchParams.hexdigit (N.of_nat i)
                     = URLSearchParams.hexdigit (N.of_nat j) → i = j)
                          (seq 0 16)) (seq 0 16)).
  { apply (bool_decide_unpack _). by vm_compute. }
  rewrite Forall_forall in Hall.
  assert (Hi : N.to_nat x ∈ seq 0 16) by (apply elem_of_seq; lia).
  assert (Hj : N.to_nat y ∈ seq 0 16) by (apply elem_of_seq; lia).
  specialize (Hall _ Hi). rewrite Forall_forall in Hall. specialize (Hall _ Hj).
  rewrite !N2Nat.id in Hall. apply Hall in Heq. lia.
Qed.

Lemma byte_of_digits (a b : ascii) :
  URLSearchParams.hexdigit (N_of_ascii a / 16) = URLSearchParams.hexdigit (N_of_ascii b / 16) →
  URLSearchParams.hexdigit (N_of_ascii a mod 16)
  = URLSearchParams.hexdigit (N_of_ascii b mod 16) →
  a = b.
Proof.
  intros Hhi Hlo.
  pose proof (N_ascii_bounded a) as Ha. pose proof (N_ascii_bounded b) as Hb.
  apply hexdigit_inj in Hhi;
    [|apply N.Div0.div_lt_upper_bound; lia|apply N.Div0.div_lt_upper_bound; lia].
  apply hexdigit_inj in Hlo; [|apply N.mod_lt; lia|apply N.mod_lt; lia].
  rewrite <-(ascii_N_embedding a), <-(ascii_N_embedding b). f_equal.
  rewrite (N.div_mod (N_of_ascii a) 16), (N.div_mod (N_of_ascii b) 16) by lia.
  by rewrite Hhi, Hlo.
Qed.

(** The encodings of two bytes never overlap: one is a prefix of a string
    the other starts only when the bytes are the same. *)
Lemma encodeByte_prefix (a b : ascii) (r1 r2 : string) :
  URLSearchParams.encodeByte a +:+ r1 = URLSearchParams.encodeByte b +:+ r2 →
  a = b ∧ r1 = r2.
Proof.
  unfold URLSearchParams.encodeByte.
  destruct (Ascii.eqb_spec a " ") as [->|Ha]; destruct (Ascii.eqb_spec b " ") as [->|Hb];
    [|destruct (URLSearchParams.unreserved b) eqn:Hub
     |destruct (URLSearchParams.unreserved a) eqn:Hua
     |destruct (URLSearchParams.unreserved a) eqn:Hua;
      destruct (URLSearchParams.unreserved b) eqn:Hub];
    rewrite ?string_app_cons, ?string_app_nil_l; intros Heq;
    try discriminate Heq.
  - by injection Heq as <-.
  - injection Heq as <- _. by vm_compute in Hub.
  - injection Heq as -> _. by vm_compute in Hua.
  - by injection Heq as <- <-.
  - injection Heq as -> _. by vm_compute in Hua.
  - injection Heq as <- _. by vm_compute in Hub.
  - injection Heq as Hhi Hlo <-. split; [|done]. by apply byte_of_digits.
Qed.

Lemma encodeByte_clean (a : ascii) :
  occurs "&" (URLSearchParams.encodeByte a) = false
  ∧ occurs "=" (URLSearchParams.encodeByte a) = false.
Proof. destruct a as [[] [] [] [] [] [] [] []]; by vm_compute. Qed.

Lemma encode_clean (s : string) :
  occurs "&" (URLSearchParams.encode s) = false
  ∧ occurs "=" (URLSearchParams.encode s) = false.
Proof.
  induction s as [|a s [IH1 IH2]]; simpl; [done|].
  destruct (encodeByte_clean a) as [H1 H2].
  by rewrite !occurs_app, H1, H2, IH1, IH2.
Qed.

Lemma encode_inj (s1 s2 : string) :
  URLSearchParams.encode s1 = URLSearchParams.encode s2 → s1 = s2.
Proof.
  revert s2. induction s1 as [|a s1 IH]; intros [|b s2]; simpl; intros Heq.
  - done.
  - exfalso. revert Heq. unfold URLSearchParams.encodeByte.
    by destruct (Ascii.eqb b " "), (URLSearchParams.unreserved b).
  - exfalso. revert Heq. unfold URLSearchParams.encodeByte.
    by destruct (Ascii.eqb a " "), (URLSearchParams.unreserved a).
  - apply encodeByte_prefix in Heq as [-> Heq]. by rewrite (IH s2 Heq).
Qed.

(** What follows the first pair in the serialisation of a list. *)
Lemma toString_cons (p : string * string) (ps : URLSearchParams.t) :
  URLSearchParams.toString (p :: ps)
  = URLSearchParams.encode p.1
    +:+ String "=" (URLSearchParams.encode p.2
                    +:+ match ps with
                        | [] => ""
                        | _ :: _ => String "&" (URLSearchParams.toString ps)
                        end).
Proof.
  destruct ps as [|q ps].
  - rewrite string_app_nil_r. reflexivity.
  - change (URLSearchParams.toString (p :: q :: ps))
      with ((URLSearchParams.encode p.1 +:+ String "=" (URLSearchParams.encode p.2))
            +:+ String "&" (URLSearchParams.toString (q :: ps))).
    rewrite string_app_assoc, string_app_cons. reflexivity.
Qed.

(** [toString] is one-to-one: a query string is the serialisation of one
    list of pairs only. *)
Lemma toString_inj (ps1 ps2 : URLSearchParams.t) :
  URLSearchParams.toString ps1 = URLSearchParams.toString ps2 → ps1 = ps2.
Proof.
  revert ps2. induction ps1 as [|[k1 v1] ps1 IH]; intros [|[k2 v2] ps2] Heq.
  - done.
  - exfalso. rewrite toString_cons in Heq.
    assert (Hocc : occurs "=" (URLSearchParams.toString []) = false) by done.
    rewrite Heq, occurs_app in Hocc. simpl in Hocc. by rewrite orb_true_r in Hocc.
  - exfalso. rewrite toString_cons in Heq.
    assert (Hocc : occurs "=" (URLSearchParams.toString []) = false) by done.
    rewrite <-Heq, occurs_app in Hocc. simpl in Hocc. by rewrite orb_true_r in Hocc.
  - rewrite !toString_cons in Heq. simpl in Heq.
    apply split_at in Heq as [Hk Heq]; [|apply encode_clean..].
    apply encode_inj in Hk as ->.
    destruct ps1 as [|q1 ps1], ps2 as [|q2 ps2].
    + rewrite !string_app_nil_r in Heq. by apply encode_inj in Heq as ->.
    + exfalso.
      assert (Hocc : occurs "&" (URLSearchParams.encode v1 +:+ "") = false).
      { rewrite occurs_app. by rewrite (proj1 (encode_clean v1)). }
      rewrite Heq, occurs_app in Hocc. simpl in Hocc. by rewrite orb_true_r in Hocc.
    + exfalso.
      assert (Hocc : occurs "&" (URLSearchParams.encode v2 +:+ "") = false).
      { rewrite occurs_app. by rewrite (proj1 (encode_clean v2)). }
      rewrite <-Heq, occurs_app in Hocc. simpl in Hocc. by rewrite orb_true_r in Hocc.
    + apply split_at in Heq as [Hv Heq]; [|apply encode_clean..].
      apply encode_inj in Hv as ->. by rewrite (IH _ Heq).
Qed.

(** For one path, two parameter maps have the same cache key exactly when
    they send the same name and value strings: an entry of the cache is
    never the answer to a request with other parameters. *)
Theorem buildCacheKey_same_request (path : string) (qs1 qs2 : Js.object) :
  Js.wf qs1 → Js.wf qs2 →
  buildCacheKey path qs1 = buildCacheKey path qs2
  ↔ prepareQueryParams qs1 ≡ₚ prepareQueryParams qs2.
Proof.
  intros Hwf1 Hwf2. split.
  - intros Hkey. unfold buildCacheKey in Hkey.
    apply (inj (String.app path)) in Hkey. apply (inj (String.app "?")) in Hkey.
    apply toString_inj in Hkey. by rewrite <-!cacheParams_Permutation, Hkey.
  - intros Hperm. unfold buildCacheKey. by rewrite (cacheParams_unique qs1 qs2).
Qed.

(** ** The cache tool and the keys of the client *)

Lemma includes_unfold (needle hay : string) :
  includes needle hay
  = String.prefix needle hay
    || match hay with
       | "" => false
       | String _ hay' => includes needle hay'
       end.
Proof. by destruct hay. Qed.

Lemma prefix_app (x t : string) : String.prefix x (x +:+ t) = true.
Proof.
  induction x as [|a x IH]; [by destruct t|].
  rewrite string_app_cons. simpl. by destruct (ascii_dec a a).
Qed.

Lemma prefix_app_l (x s t : string) :
  String.prefix x s = true → String.prefix x (s +:+ t) = true.
Proof.
  revert s. induction x as [|a x IH]; intros s Hs.
  - by destruct (s +:+ t).
  - destruct s as [|b s]; [done|]. rewrite string_app_cons. simpl in *.
    destruct (ascii_dec a b); [by apply IH|done].
Qed.

Lemma includes_app_l (x s t : string) :
  includes x s = true → includes x (s +:+ t) = true.
Proof.
  induction s as [|b s IH]; intros Hs.
  - rewrite includes_unfold in Hs. rewrite orb_false_r in Hs.
    destruct x; [|done]. rewrite includes_unfold. by destruct ("" +:+ t).
  - rewrite includes_unfold in Hs. rewrite string_app_cons, includes_unfold.
    apply orb_true_iff in Hs as [Hs|Hs].
    + rewrite <-string_app_cons. by rewrite (prefix_app_l _ _ _ Hs).
    + by rewrite (IH Hs), orb_true_r.
Qed.

Lemma includes_app_r (x p s : string) :
  includes x s = true → includes x (p +:+ s) = true.
Proof.
  intros Hs. induction p as [|a p IH]; [done|].
  rewrite string_app_cons, includes_unfold. by rewrite IH, orb_true_r.
Qed.

Lemma includes_self_app (x t : string) : includes x (x +:+ t) = true.
Proof. rewrite includes_unfold. by rewrite prefix_app. Qed.

(** A needle whose first character does not occur is not included. *)
Lemma includes_absent (c : ascii) (n s : string) :
  occurs c s = false → includes (String c n) s = false.
Proof.
  induction s as [|a s IH]; [done|]. simpl. intros Hs.
  apply orb_false_iff in Hs as [Ha Hs]. rewrite (IH Hs).
  destruct (ascii_dec c a) as [->|_]; [|done]. by rewrite Ascii.eqb_refl in Ha.
Qed.

Lemma encodeByte_no_slash (a : ascii) :
  occurs "/" (URLSearchParams.encodeByte a) = false.
Proof. destruct a as [[] [] [] [] [] [] [] []]; by vm_compute. Qed.

Lemma encode_no_slash (s : string) : occurs "/" (URLSearchParams.encode s) = false.
Proof.
  induction s as [|a s IH]; [done|]. simpl.
  by rewrite occurs_app, encodeByte_no_slash, IH.
Qed.

(** A query string holds no slash. *)
Lemma toString_no_slash (ps : URLSearchParams.t) :
  occurs "/" (URLSearchParams.toString ps) = false.
Proof.
  induction ps as [|p ps IH]; [done|]. rewrite toString_cons, occurs_app.
  rewrite encode_no_slash. simpl. rewrite occurs_app, encode_no_slash. simpl.
  destruct ps; [done|]. simpl. exact IH.
Qed.

Lemma includes_concat (x : string) (l : list string) :
  x ∈ l → includes x (String.concat "&" l) = true.
Proof.
  induction l as [|y l IH]; intros Hin; [by apply elem_of_nil in Hin|].
  apply elem_of_cons in Hin as [->|Hin].
  - destruct l as [|z l]; simpl.
    + rewrite <-(string_app_nil_r y) at 2. apply includes_self_app.
    + apply includes_self_app.
  - destruct l as [|z l]; [by apply elem_of_nil in Hin|].
    change (String.concat "&" (y :: z :: l))
      with (y +:+ ("&" +:+ String.concat "&" (z :: l))).
    apply includes_app_r, includes_app_r. by apply IH.
Qed.

(** The key of a listing request is, for the cache tool, a listing. *)
Lemma listing_key (qs : Js.object) :
  String.prefix "/lifelogs" (buildCacheKey "/lifelogs" qs) = true
  ∧ includes "/lifelogs/" (buildCacheKey "/lifelogs" qs) = false.
Proof.
  unfold buildCacheKey.
  pose proof (toString_no_slash (cacheParams qs)) as Hslash.
  revert Hslash. generalize (URLSearchParams.toString (cacheParams qs)). intros x Hx.
  split; [reflexivity|].
  change ("/lifelogs" +:+ "?" +:+ x) with (String "/" ("lifelogs?" +:+ x)).
  rewrite includes_unfold.
  change (String.prefix "/lifelogs/" (String "/" ("lifelogs?" +:+ x))) with false.
  apply includes_absent.
  by rewrite occurs_app, Hx.
Qed.

Lemma single_key (id : string) (qs : Js.object) :
  includes "/lifelogs/" (buildCacheKey ("/lifelogs/" +:+ id) qs) = true.
Proof.
  unfold buildCacheKey. rewrite !string_app_assoc. apply includes_self_app.
Qed.

Lemma storeDel_lookup (l : list string) (c : NodeCache.t) (key : string) :
  NodeCache.entries (foldl storeDel c l) !! key
  = if decide (key ∈ l) then None else NodeCache.entries c !! key.
Proof.
  revert c. induction l as [|k l IH]; intros c; simpl.
  - destruct (decide (key ∈ [])) as [Hin|_]; [by apply elem_of_nil in Hin|done].
  - rewrite IH. simpl.
    destruct (decide (key ∈ l)) as [Hin|Hnin], (decide (key ∈ k :: l)) as [Hin'|Hnin'];
      try done.
    + exfalso. apply Hnin'. by right.
    + apply elem_of_cons in Hin' as [->|?]; [|done]. apply lookup_delete_eq.
    + apply lookup_delete_ne. intros ->. apply Hnin'. by left.
Qed.

(** Removing the keys of the store that a filter matches leaves each other
    entry as it was. *)
Lemma removed_lookup (type key : string) (c : NodeCache.t) :
  NodeCache.entries
    (foldl storeDel c (filter (fun k => Is_true (matchesType type k)) (storeKeys c))) !! key
  = if matchesType type key then None else NodeCache.entries c !! key.
Proof.
  rewrite storeDel_lookup.
  destruct (matchesType type key) eqn:Hm.
  - destruct (decide (key ∈ filter (fun k => Is_true (matchesType type k)) (storeKeys c)))
      as [|Hnin]; [done|].
    destruct (NodeCache.entries c !! key) as [e|] eqn:He; [|done].
    exfalso. apply Hnin. apply list_elem_of_filter. split; [by rewrite Hm|].
    unfold storeKeys. apply list_elem_of_fmap. exists (key, e). split; [done|].
    by apply elem_of_map_to_list.
  - destruct (decide (key ∈ filter (fun k => Is_true (matchesType type k)) (storeKeys c)))
      as [Hin|]; [|done].
    apply list_elem_of_filter in Hin as [Hk _]. by rewrite Hm in Hk.
Qed.

Lemma removed_size (type : string) (c : NodeCache.t) :
  (size (NodeCache.entries
           (foldl storeDel c (filter (fun k => Is_true (matchesType type k)) (storeKeys c))))
   + length (filter (fun k => Is_true (matchesType type k)) (storeKeys c)))%nat
  = size (NodeCache.entries c).
Proof.
  assert (Hfilter :
    NodeCache.entries
      (foldl storeDel c (filter (fun k => Is_true (matchesType type k)) (storeKeys c)))
    = filter (fun kv : string * NodeCache.CacheEntry => ¬ Is_true (matchesType type kv.1))
             (NodeCache.entries c)).
  { apply map_eq. intros k. rewrite removed_lookup, map_lookup_filter.
    destruct (NodeCache.entries c !! k) as [e|] eqn:He; simpl.
    - destruct (matchesType type k); case_guard as Hg; try done;
        destruct Hg; by intros ?.
    - by destruct (matchesType type k). }
  rewrite Hfilter. clear Hfilter. unfold storeKeys.
  induction (NodeCache.entries c) as [|k e m Hk Hfirst IH] using map_first_key_ind.
  - by rewrite map_filter_empty, map_to_list_empty.
  - rewrite map_to_list_insert_first_key by done. csimpl.
    rewrite filter_cons, map_size_insert_None by done.
    destruct (matchesType type k) eqn:Hm.
    + rewrite map_filter_insert_False by (simpl; rewrite Hm; by intros ?).
      rewrite delete_id by done.
      rewrite decide_True by done. simpl. lia.
    + rewrite map_filter_insert_True by (simpl; rewrite Hm; by intros ?).
      rewrite map_size_insert_None by (apply map_lookup_filter_None_2; by left).
      rewrite decide_False by (by intros ?). simpl. lia.
Qed.

(** Given a type, [clear_type] returns; it has removed the keys its filter
    matches and no other, and the number it reports is the number of
    entries that are gone. *)
Theorem clearType_exact (type : string) (c : NodeCache.t) :
  type ≠ "" →
  ∃ n c',
    clearType (Some type) c = inr (n, c')
    ∧ (∀ key, NodeCache.entries c' !! key
              = if matchesType type key then None else NodeCache.entries c !! key)
    ∧ (size (NodeCache.entries c') + n)%nat = size (NodeCache.entries c).
Proof.
  intros Htype. destruct type as [|a type]; [done|].
  eexists _, _. split; [reflexivity|]. split.
  - intros key. apply removed_lookup.
  - apply removed_size.
Qed.

(** Clearing the type [listings] removes the entry of every listing
    request, whatever its parameters; clearing [metadata] and then
    [full_lifelog] removes the entry of every single-lifelog request. *)
Theorem clearType_invalidates (c : NodeCache.t) (id : string) (qs : Js.object) :
  (∃ n c',
     clearType (Some "listings") c = inr (n, c')
     ∧ NodeCache.entries c' !! buildCacheKey "/lifelogs" qs = None)
  ∧ (∃ n1 c1 n2 c2,
       clearType (Some "metadata") c = inr (n1, c1)
       ∧ clearType (Some "full_lifelog") c1 = inr (n2, c2)
       ∧ NodeCache.entries c2 !! buildCacheKey ("/lifelogs/" +:+ id) qs = None).
Proof.
  split.
  - eexists _, _. split; [reflexivity|].
    rewrite removed_lookup. unfold matchesType.
    destruct (listing_key qs) as [Hprefix Hslash]. by rewrite Hprefix, Hslash.
  - eexists _, _, _, _. split; [reflexivity|]. split; [reflexivity|].
    pose proof (single_key id qs) as Hsingle. revert Hsingle.
    generalize (buildCacheKey ("/lifelogs/" +:+ id) qs). intros key Hsingle.
    rewrite !removed_lookup. unfold matchesType. rewrite Hsingle.
    destruct (includes "includeMarkdown=true" key); simpl; [done|].
    by destruct (includes "full_lifelog" key).
Qed.

(** The [stats] action types the keys of the client's requests as the
    requests are: a listing key as a listing, a single-lifelog key as a
    lifelog. *)
Theorem keyType_of_request (id : string) (qs : Js.object) :
  keyType (buildCacheKey "/lifelogs" qs)
  ∈ ["date_filtered_listings"; "lifelog_listings"]
  ∧ keyType (buildCacheKey ("/lifelogs/" +:+ id) qs) ∈ ["full_lifelog"; "lifelog_metadata"].
Proof.
  split.
  - unfold keyType. destruct (listing_key qs) as [Hprefix Hslash].
    rewrite Hprefix, Hslash.
    destruct (includes "date=" _); in_tags.
  - unfold keyType. rewrite single_key.
    destruct (includes "includeMarkdown=true" _); in_tags.
Qed.

(** The key of a single-lifelog request whose [includeMarkdown] parameter is
    the boolean [true] is typed as a full lifelog by [stats], and is among
    the keys that [clear_type] removes for the type [full_lifelog]. *)
Theorem markdown_key_is_full (id : string) (qs : Js.object) :
  Js.wf qs →
  Js.get "includeMarkdown" qs = Js.Bool true →
  keyType (buildCacheKey ("/lifelogs/" +:+ id) qs) = "full_lifelog"
  ∧ matchesType "full_lifelog" (buildCacheKey ("/lifelogs/" +:+ id) qs) = true.
Proof.
  intros Hwf Hget.
  assert (includes "includeMarkdown=true" (buildCacheKey ("/lifelogs/" +:+ id) qs) = true)
    as Hmarkdown.
  { unfold buildCacheKey. apply includes_app_r, includes_app_r.
    apply includes_concat. unfold URLSearchParams.encodedPairs.
    apply list_elem_of_fmap. exists ("includeMarkdown", "true"). split; [done|].
    rewrite cacheParams_Permutation by done.
    apply prepareQueryParams_elem_of. exists (Js.Bool true). split; [|done].
    simpl. clear Hwf. induction qs as [|[k v] qs IH]; simpl in Hget; [done|].
    destruct (String.eqb k "includeMarkdown") eqn:Hk.
    + apply String.eqb_eq in Hk as ->. subst v. by left.
    + right. by apply IH. }
  unfold keyType, matchesType. by rewrite single_key, Hmarkdown.
Qed.

Lemma keysByType_fold (keys : list string) (acc : gmap string nat) (t : string) :
  default 0%nat (foldl (fun acc key =>
                          <[keyType key := (default 0 (acc !! keyType key) + 1)%nat]> acc)
                       acc keys !! t)
  = (default 0 (acc !! t) + length (filter (fun key => keyType key = t) keys))%nat.
Proof.
  revert acc. induction keys as [|k keys IH]; intros acc; simpl; [lia|].
  rewrite IH, filter_cons. destruct (decide (keyType k = t)) as [<-|Hne].
  - rewrite lookup_insert_eq. simpl. lia.
  - by rewrite lookup_insert_ne.
Qed.

Lemma keyType_keyTypes (key : string) : keyType key ∈ keyTypes.
Proof.
  unfold keyType, keyTypes.
  destruct (includes "/lifelogs/" key), (includes "includeMarkdown=true" key),
    (String.prefix "/lifelogs" key), (includes "date=" key), (includes "query=" key);
    in_tags.
Qed.

(** The count that [stats] shows for a type is the number of keys of that
    type, and the counts of the six types add up to the number of keys: each
    key is counted once. *)
Theorem keysByType_counts (keys : list string) :
  (∀ t, default 0%nat (keysByType keys !! t)
        = length (filter (fun key => keyType key = t) keys))
  ∧ sum_list ((fun t => default 0%nat (keysByType keys !! t)) <$> keyTypes) = length keys.
Proof.
  assert (Hcount : ∀ t, default 0%nat (keysByType keys !! t)
                        = length (filter (fun key => keyType key = t) keys)).
  { intros t. unfold keysByType. by rewrite keysByType_fold, lookup_empty. }
  split; [exact Hcount|].
  unfold keyTypes. csimpl. rewrite !Hcount. clear Hcount.
  induction keys as [|k keys IH]; [done|].
  rewrite !filter_cons. pose proof (keyType_keyTypes k) as Hk.
  unfold keyTypes in Hk. rewrite !elem_of_cons in Hk.
  destruct Hk as [Hk|[Hk|[Hk|[Hk|[Hk|[Hk|Hk]]]]]]; [..|by apply elem_of_nil in Hk];
    rewrite Hk; repeat case_decide; try done; simpl in *; lia.
Qed.

(** ** Instances on the sample data *)

Lemma enhanceError_status_witness :
  Js.prop (enhanceError (Js.Obj [("response", Js.Obj [("statusCode", Js.Num (Js.Fin 503))])]))
          "statusCode"
  = Js.Num (Js.Fin 503).
Proof.
  exact (proj2 (enhanceError_status
                  (Js.Obj [("response", Js.Obj [("statusCode", Js.Num (Js.Fin 503))])]))
               eq_refl).
Defined.

Lemma getCacheTags_tiers_witness :
  "lifelog_listings" ∈ getCacheTags "/lifelogs" [("limit", Js.Num (Js.Fin 10))].
Proof.
  exact (proj1 (proj2 (getCacheTags_tiers "/lifelogs" [("limit", Js.Num (Js.Fin 10))]))
               eq_refl).
Defined.

Lemma no_cache_store_untouched_witness :
  ∃ res w',
    callLimitlessApi (defaultConfig "key") (respond 200) 5 "/lifelogs/42" [] false fullWorld
    = Some (res, w')
    ∧ cache w' = cache fullWorld.
Proof.
  destruct (callLimitlessApi (defaultConfig "key") (respond 200) 5 "/lifelogs/42" [] false
              fullWorld) as [[res w']|] eqn:Hrun; [|by vm_compute in Hrun].
  exists res, w'. split; [reflexivity|].
  exact (no_cache_store_untouched (defaultConfig "key") (respond 200) 5 "/lifelogs/42" []
           fullWorld w' res Hrun).
Defined.

Lemma failed_fetch_writes_nothing_witness :
  ∃ t w',
    callLimitlessApi (defaultConfig "key") (reject 503) 5 "/lifelogs/42" [] true fullWorld
    = Some (Abrupt t, w')
    ∧ cache w'
      = (NodeCache.get (cache fullWorld) (buildCacheKey "/lifelogs/42" []) (now fullWorld)).2.
Proof.
  destruct (callLimitlessApi (defaultConfig "key") (reject 503) 5 "/lifelogs/42" [] true
              fullWorld) as [[[d|t] w']|] eqn:Hrun;
    [by vm_compute in Hrun| |by vm_compute in Hrun].
  exists t, w'. split; [reflexivity|].
  exact (failed_fetch_writes_nothing (defaultConfig "key") (reject 503) 5 "/lifelogs/42" []
           true fullWorld w' t Hrun).
Defined.

Lemma client_error_codes_witness :
  ∃ m w',
    callLimitlessApi (defaultConfig "key") (reject 401) 5 "/lifelogs" [] true (freshWorld 500)
    = Some (Abrupt (Mcp m), w')
    ∧ mcp_code m ∈ clientCodes.
Proof.
  destruct (callLimitlessApi (defaultConfig "key") (reject 401) 5 "/lifelogs" [] true
              (freshWorld 500)) as [[[d|[e|m]] w']|] eqn:Hrun;
    [by vm_compute in Hrun|by vm_compute in Hrun| |by vm_compute in Hrun].
  exists m, w'. split; [reflexivity|].
  exact (proj1 (proj2 (client_error_codes (defaultConfig "key") (reject 401) 5 "/lifelogs" []
                         true (freshWorld 500) w' m Hrun))).
Defined.

Lemma last_error_is_raised_witness :
  ∃ e w',
    callLimitlessApi (defaultConfig "key") (rejectWith connectError) 5 "/lifelogs" [] true
      (freshWorld 500) = Some (Abrupt (mapError "/lifelogs" e), w')
    ∧ attempts (trace w') = 4%nat.
Proof.
  destruct (last_error_is_raised (defaultConfig "key") (rejectWith connectError) 5 3
              "/lifelogs" [] true (freshWorld 500)) as (e & w' & Hcall & _ & Hatt & _).
  - reflexivity.
  - intros i _. exists connectError. split; reflexivity.
  - reflexivity.
  - lia.
  - exists e, w'. split; [exact Hcall|exact Hatt].
Defined.

Lemma server_error_retried_witness :
  ∃ w',
    callLimitlessApi (defaultConfig "key") (reject 502) 5 "/lifelogs" [] true (freshWorld 500)
    = Some (Abrupt (Mcp {| mcp_message := "Limitless API service error: 502";
                           mcp_name := "McpError";
                           mcp_code := Js.Str "api_error";
                           mcp_httpStatus := Js.Undefined |}), w').
Proof.
  destruct (server_error_retried (defaultConfig "key") (reject 502) 5 "/lifelogs" [] true
              (freshWorld 500) (statusError 502) 502) as (w' & Hcall & _).
  - reflexivity.
  - reflexivity.
  - reflexivity.
  - lia.
  - vm_compute. discriminate.
  - reflexivity.
  - vm_compute. lia.
  - exists w'. exact Hcall.
Defined.

Lemma statusless_error_rethrown_witness :
  ∃ w',
    callLimitlessApi (defaultConfig "key") (rejectWith connectError) 5 "/lifelogs" [] true
      (freshWorld 500) = Some (Abrupt (Rethrown connectError), w')
    ∧ attempts (trace w') = 4%nat.
Proof.
  destruct (statusless_error_rethrown (defaultConfig "key") (rejectWith connectError) 5 3
              "/lifelogs" [] true (freshWorld 500) (fun _ => connectError))
    as (w' & Hcall & Hatt).
  - intros i _. split; [|split]; reflexivity.
  - reflexivity.
  - reflexivity.
  - lia.
  - exists w'. split; [exact Hcall|exact Hatt].
Defined.

Lemma wrapped_404_retried_witness :
  ∃ w',
    callLimitlessApi (defaultConfig "key") (rejectWith (wrappedError 404)) 5 "/lifelogs/42" []
      true (freshWorld 500)
    = Some (Abrupt (Mcp {| mcp_message := "Resource not found: /lifelogs/42";
                           mcp_name := "McpError";
                           mcp_code := Js.Str "not_found";
                           mcp_httpStatus := Js.Undefined |}), w')
    ∧ attempts (trace w') = 4%nat.
Proof.
  destruct (wrapped_404_retried (defaultConfig "key") (rejectWith (wrappedError 404)) 5
              "/lifelogs/42" [] true (freshWorld 500) (wrappedError 404))
    as (w' & Hcall & Hatt).
  - reflexivity.
  - reflexivity.
  - reflexivity.
  - vm_compute. discriminate.
  - reflexivity.
  - vm_compute. lia.
  - exists w'. split; [exact Hcall|exact Hatt].
Defined.

Lemma client_error_not_retried_witness :
  ∃ w',
    callLimitlessApi (defaultConfig "key") (reject 429) 5 "/lifelogs" [] true (freshWorld 500)
    = Some (Abrupt (Rethrown (statusError 429)), w')
    ∧ attempts (trace w') = 1%nat.
Proof.
  destruct (client_error_not_retried (defaultConfig "key") (reject 429) 5 "/lifelogs" [] true
              (freshWorld 500) (statusError 429)) as (w' & Hcall & Htr).
  - reflexivity.
  - reflexivity.
  - vm_compute. discriminate.
  - reflexivity.
  - lia.
  - exists w'. split; [exact Hcall|]. rewrite Htr. reflexivity.
Defined.

Lemma negative_retries_no_request_witness :
  ∃ w',
    callLimitlessApi (configWithRetries (-1)) (respond 200) 5 "/lifelogs" [] true
      (freshWorld 500)
    = Some (Abrupt (Rethrown (newError "API call failed with no response: /lifelogs")), w')
    ∧ trace w' = [].
Proof.
  destruct (negative_retries_no_request (configWithRetries (-1)) (respond 200) 5 "/lifelogs"
              [] true (freshWorld 500)) as (w' & Hcall & Htr).
  - reflexivity.
  - reflexivity.
  - lia.
  - exists w'. split; [exact Hcall|exact Htr].
Defined.

Lemma successful_fetch_is_stored_witness :
  ∃ w',
    callLimitlessApi (defaultConfig "key") (respond 200) 5 "/lifelogs/42" [] true
      (freshWorld 500) = Some (Normal sampleBody, w')
    ∧ NodeCache.value <$> (NodeCache.entries (cache w') !! "/lifelogs/42?") = Some sampleBody.
Proof.
  destruct (successful_fetch_is_stored (defaultConfig "key") (respond 200) 5 0
              "/lifelogs/42" [] (freshWorld 500)
              {| Undici.statusCode := 200; Undici.body := inr sampleBody |} sampleBody)
    as (w' & Hcall & Hent & _).
  - reflexivity.
  - left. reflexivity.
  - intros i Hi. lia.
  - reflexivity.
  - simpl. lia.
  - reflexivity.
  - vm_compute. discriminate.
  - lia.
  - exists w'. split; [exact Hcall|].
    rewrite Hent. change (buildCacheKey "/lifelogs/42" []) with "/lifelogs/42?".
    by rewrite lookup_insert_eq.
Defined.

Lemma tool_handler_after_client_witness :
  ∃ t w',
    callLimitlessApi (defaultConfig "key") (respond 503) 5 "/lifelogs/42" [] true
      (freshWorld 500) = Some (Abrupt t, w')
    ∧ mcp_code (lifelogErrorHandler "42" t) ≠ Js.Str ErrorCode.ServiceUnavailable.
Proof.
  destruct (callLimitlessApi (defaultConfig "key") (respond 503) 5 "/lifelogs/42" [] true
              (freshWorld 500)) as [[[d|t] w']|] eqn:Hrun;
    [by vm_compute in Hrun| |by vm_compute in Hrun].
  exists t, w'. split; [reflexivity|].
  exact (proj2 (tool_handler_after_client (defaultConfig "key") (respond 503) 5
                  "/lifelogs/42" "42" [] true (freshWorld 500) w' t Hrun)).
Defined.

Lemma non_2xx_response_plain_error_witness :
  ∃ w',
    callLimitlessApi (defaultConfig "key") (respond 304) 5 "/lifelogs/42" [] true
      (freshWorld 500)
    = Some (Abrupt (Rethrown (newError "HTTP error: 304")), w')
    ∧ mcp_message (lifelogErrorHandler "42" (Rethrown (newError "HTTP error: 304")))
      = "Error retrieving lifelog 42: HTTP error: 304".
Proof.
  destruct (non_2xx_response_plain_error (defaultConfig "key") (respond 304) 5
              "/lifelogs/42" "42" [] true (freshWorld 500)
              {| Undici.statusCode := 304; Undici.body := inr sampleBody |})
    as (w' & Hcall & _ & Hhandler).
  - reflexivity.
  - right. simpl. lia.
  - vm_compute. discriminate.
  - reflexivity.
  - lia.
  - exists w'. split; [exact Hcall|].
    change (newError "HTTP error: 304")
      with (newError ("HTTP error: " +:+ pretty
                        (Undici.statusCode
                           {| Undici.statusCode := 304; Undici.body := inr sampleBody |}))).
    rewrite Hhandler. reflexivity.
Defined.

Lemma sorted_params_url_is_key_witness :
  requestUrl (defaultConfig "key") "/lifelogs"
    (prepareQueryParams [("😀", Js.Str "1"); ("～", Js.Str "2")])
  = "https://api.limitless.ai/v1/lifelogs?%F0%9F%98%80=1&%EF%BD%9E=2".
Proof.
  rewrite (sorted_params_url_is_key (defaultConfig "key") "/lifelogs"
             [("😀", Js.Str "1"); ("～", Js.Str "2")]).
  - reflexivity.
  - unfold Js.wf. simpl. apply (bool_decide_unpack _). vm_compute. exact I.
  - simpl. apply (bool_decide_unpack _). vm_compute. exact I.
Defined.

Lemma buildCacheKey_same_request_witness :
  buildCacheKey "/lifelogs" [("limit", Js.Num (Js.Fin 10)); ("cursor", Js.Null)]
  = buildCacheKey "/lifelogs" [("limit", Js.Str "10")].
Proof.
  apply (buildCacheKey_same_request "/lifelogs"
           [("limit", Js.Num (Js.Fin 10)); ("cursor", Js.Null)] [("limit", Js.Str "10")]).
  - unfold Js.wf. simpl. apply (bool_decide_unpack _). vm_compute. exact I.
  - unfold Js.wf. simpl. apply (bool_decide_unpack _). vm_compute. exact I.
  - reflexivity.
Defined.

Lemma clearType_exact_witness :
  ∃ n c',
    clearType (Some "listings") sampleStore = inr (n, c')
    ∧ (∀ key, NodeCache.entries c' !! key
              = if matchesType "listings" key then None
                else NodeCache.entries sampleStore !! key)
    ∧ (size (NodeCache.entries c') + n)%nat = size (NodeCache.entries sampleStore).
Proof.
  apply (clearType_exact "listings" sampleStore). intros Heq. discriminate Heq.
Defined.

Lemma markdown_key_is_full_witness :
  keyType (buildCacheKey ("/lifelogs/" +:+ "abc") [("includeMarkdown", Js.Bool true)])
  = "full_lifelog"
  ∧ matchesType "full_lifelog"
      (buildCacheKey ("/lifelogs/" +:+ "abc") [("includeMarkdown", Js.Bool true)]) = true.
Proof.
  apply (markdown_key_is_full "abc" [("includeMarkdown", Js.Bool true)]).
  - unfold Js.wf. simpl. apply (bool_decide_unpack _). vm_compute. exact I.
  - reflexivity.
Defined.

Lemma enhanceError_isApiError_witness :
  isApiError (enhanceError (Js.Str "socket hang up")) = true
  ∧ isApiError (enhanceError (Js.Obj [("response", Js.Obj [("statusCode", Js.Num (Js.Fin 503))])]))
    = true.
Proof.
  split.
  - apply (enhanceError_isApiError (Js.Str "socket hang up")). left. reflexivity.
  - apply (enhanceError_isApiError
             (Js.Obj [("response", Js.Obj [("statusCode", Js.Num (Js.Fin 503))])])).
    right. reflexivity.
Defined.
